(** * OrthOpen: geometric core of the add-on, embedded and verified

    The development embeds the numeric code of [helpers.py] and
    [operators.py]: the mouse ray cast over the scene's object instances,
    the weight paint around the ankle pivot, and the fitting of the leg
    prosthesis cosmetics to the patient's measures; beside them the names
    under which the operators are registered, the selection of the ankle
    vertex and the import of the parts of the prosthesis.

    Numbers.  Python and numpy floats are idealised: a finite float is an
    exact rational, which the operations keep in lowest terms, and the IEEE
    special values (the two infinities and
    not-a-number) are kept, because numpy's division yields them instead of
    raising.  Rounding is not modelled, and neither is the sign of a
    zero: there is one zero, as for Python's comparisons, which do not
    tell the two zeros of IEEE apart, and wherever an example below divides
    by a zero it is the positive one. *)

From stdpp Require Import gmap strings list.
From Stdlib Require Import QArith Qminmax Lqa.

Local Open Scope Q_scope.

(** ** Floats *)

Module Float.

Inductive float : Type :=
| Fin (q : Q)
| PInf
| NInf
| NaN.

(** The float of a rational literal. *)
Definition dec (q : Q) : float := Fin (Qred q).

Definition is_finite (a : float) : bool :=
  match a with Fin _ => true | _ => false end.

Definition is_zero (a : float) : bool :=
  match a with Fin q => Qeq_bool q 0 | _ => false end.

(** The infinity (or not-a-number) that the sign [c] of a finite operand
    selects. *)
Definition signed_inf (c : comparison) : float :=
  match c with Gt => PInf | Lt => NInf | Eq => NaN end.

Definition opp (a : float) : float :=
  match a with
  | Fin q => Fin (- q)
  | PInf => NInf
  | NInf => PInf
  | NaN => NaN
  end.

Definition add (a b : float) : float :=
  match a, b with
  | NaN, _ | _, NaN => NaN
  | Fin p, Fin q => Fin (Qred (p + q))
  | PInf, NInf | NInf, PInf => NaN
  | PInf, _ | _, PInf => PInf
  | NInf, _ | _, NInf => NInf
  end.

Definition sub (a b : float) : float := add a (opp b).

Definition mul (a b : float) : float :=
  match a, b with
  | NaN, _ | _, NaN => NaN
  | Fin p, Fin q => Fin (Qred (p * q))
  | Fin p, PInf | PInf, Fin p => signed_inf (p ?= 0)
  | Fin p, NInf | NInf, Fin p => signed_inf (0 ?= p)
  | PInf, PInf | NInf, NInf => PInf
  | PInf, NInf | NInf, PInf => NInf
  end.

(** Division of numpy ([np.true_divide]) and of C: a zero divisor gives an
    infinity or not-a-number, never an exception. *)
Definition div (a b : float) : float :=
  match a, b with
  | NaN, _ | _, NaN => NaN
  | Fin p, Fin q => if Qeq_bool q 0 then signed_inf (p ?= 0) else Fin (Qred (p / q))
  | Fin _, _ => Fin 0
  | PInf, Fin q => signed_inf (match q ?= 0 with Lt => Lt | _ => Gt end)
  | NInf, Fin q => signed_inf (match q ?= 0 with Lt => Gt | _ => Lt end)
  | _, _ => NaN
  end.

(** Comparison; [None] when an operand is not-a-number, which makes every
    ordered test false. *)
Definition compare (a b : float) : option comparison :=
  match a, b with
  | NaN, _ | _, NaN => None
  | Fin p, Fin q => Some (p ?= q)
  | PInf, PInf | NInf, NInf => Some Eq
  | PInf, _ | _, NInf => Some Gt
  | NInf, _ | _, PInf => Some Lt
  end.

Definition ltb (a b : float) : bool :=
  match compare a b with Some Lt => true | _ => false end.
Definition leb (a b : float) : bool :=
  match compare a b with Some Lt | Some Eq => true | _ => false end.
Definition gtb (a b : float) : bool := ltb b a.
Definition geb (a b : float) : bool := leb b a.
Definition eqb (a b : float) : bool :=
  match compare a b with Some Eq => true | _ => false end.
Definition neb (a b : float) : bool := negb (eqb a b).

(** [np.maximum] and [np.minimum]: not-a-number propagates. *)
Definition maximum (a b : float) : float :=
  match a, b with
  | NaN, _ | _, NaN => NaN
  | _, _ => if ltb a b then b else a
  end.

Definition minimum (a b : float) : float :=
  match a, b with
  | NaN, _ | _, NaN => NaN
  | _, _ => if ltb b a then b else a
  end.

(** [np.clip a a_min a_max] is [minimum (maximum a a_min) a_max]. *)
Definition clip (a a_min a_max : float) : float :=
  minimum (maximum a a_min) a_max.

(** The same value: rationals up to [Qeq], special values by name. *)
Definition feq (a b : float) : Prop :=
  match a, b with
  | Fin p, Fin q => p == q
  | PInf, PInf | NInf, NInf | NaN, NaN => True
  | _, _ => False
  end.

(** Finite and strictly positive, finite and strictly negative. *)
Definition is_positive (a : float) : Prop :=
  match a with Fin q => 0 < q | _ => False end.
Definition is_negative (a : float) : Prop :=
  match a with Fin q => q < 0 | _ => False end.

End Float.

Export Float.

Declare Scope float_scope.
Delimit Scope float_scope with float.
Bind Scope float_scope with float.
Infix "+" := Float.add : float_scope.
Infix "-" := Float.sub : float_scope.
Infix "*" := Float.mul : float_scope.
Infix "/" := Float.div : float_scope.
Infix "≈" := Float.feq (at level 70, no associativity).

(** ** Outcome of a Python call: a value, or a raised exception *)

(** [ValueError] and [ZeroDivisionError] are Python's.  [InvalidParameter]
    and [DegenerateGeometry] are the two error conditions of the
    specification; no line of [helpers.py] or [operators.py] raises them. *)
Inductive exn : Type :=
| ValueError
| ZeroDivisionError
| InvalidParameter
| DegenerateGeometry.

Inductive outcome (A : Type) : Type :=
| Return (a : A)
| Raise (e : exn).

Arguments Return {A} a.
Arguments Raise {A} e.

#[global] Instance outcome_ret : MRet outcome := fun A a => Return a.
#[global] Instance outcome_bind : MBind outcome := fun A B k m =>
  match m with
  | Return a => k a
  | Raise e => Raise e
  end.

(** A Python [for] loop over [l] threading the state [s]; an exception
    leaves the loop at once. *)
Fixpoint for_each {A S : Type} (body : S -> A -> outcome S) (l : list A) (s : S)
  : outcome S :=
  match l with
  | [] => Return s
  | a :: l' => s' ← body s a; for_each body l' s'
  end.

(** Python's float division raises on a zero divisor. *)
Definition py_truediv (a b : float) : outcome float :=
  if is_zero b then Raise ZeroDivisionError else Return (a / b)%float.

(** ** mathutils: vectors and 4x4 matrices *)

Module mathutils.

Record Vector : Type := mkVector { x : float; y : float; z : float }.

Definition Vector_add (a b : Vector) : Vector :=
  mkVector (x a + x b) (y a + y b) (z a + z b).
Definition Vector_sub (a b : Vector) : Vector :=
  mkVector (x a - x b) (y a - y b) (z a - z b).
Definition dot (a b : Vector) : float :=
  x a * x b + y a * y b + z a * z b.
Definition cross (a b : Vector) : Vector :=
  mkVector (y a * z b - z a * y b) (z a * x b - x a * z b) (x a * y b - y a * x b).
Definition scaled (k : float) (a : Vector) : Vector :=
  mkVector (k * x a) (k * y a) (k * z a).

(** [v.length_squared] *)
Definition length_squared (a : Vector) : float := dot a a.

(** A matrix is its list of rows; [matrix_world] has four rows of four. *)
Abbreviation Matrix := (list (list float)).

Definition entry (m : Matrix) (i j : nat) : float :=
  match m !! i with
  | Some row => default (Fin 0) (row !! j)
  | None => Fin 0
  end.

Definition drop_nth {A : Type} (j : nat) (l : list A) : list A :=
  take j l ++ drop (S j) l.

(** The matrix without row [i] and column [j]. *)
Definition minor (i j : nat) (m : Matrix) : Matrix :=
  map (drop_nth j) (drop_nth i m).

Definition alternate (j : nat) (a : float) : float :=
  if Nat.even j then a else opp a.

(** Determinant of an [n] by [n] matrix, expanded along its first row. *)
Fixpoint determinant_n (n : nat) (m : Matrix) : float :=
  match n with
  | O => Fin 1
  | S n' =>
      foldr (fun j acc =>
               (alternate j (entry m 0 j * determinant_n n' (minor 0 j m)) + acc)%float)
            (Fin 0) (seq 0 n)
  end.

Definition determinant (m : Matrix) : float := determinant_n 4 m.

Definition cofactor (m : Matrix) (i j : nat) : float :=
  alternate (i + j) (determinant_n 3 (minor i j m)).

(** [m.inverted()]: the adjugate over the determinant; a matrix whose
    determinant is zero has no inverse and the call raises [ValueError]. *)
Definition inverted (m : Matrix) : outcome Matrix :=
  let det := determinant m in
  if neb det (Fin 0) then
    Return (map (fun i => map (fun j => (cofactor m j i / det)%float) (seq 0 4))
                (seq 0 4))
  else Raise ValueError.

(** [m @ v] for a 4x4 matrix and a 3D vector: the vector is completed by a
    fourth coordinate 1 and the first three coordinates are returned. *)
Definition matmul_vec (m : Matrix) (v : Vector) : Vector :=
  let row i := (entry m i 0 * x v + entry m i 1 * y v + entry m i 2 * z v
                + entry m i 3 * Fin 1)%float in
  mkVector (row 0%nat) (row 1%nat) (row 2%nat).

(** [m.translation]: the first three entries of the last column. *)
Definition translation (m : Matrix) : Vector :=
  mkVector (entry m 0 3) (entry m 1 3) (entry m 2 3).

(** [m.translation = t] writes that column and nothing else. *)
Definition set_translation (m : Matrix) (t : Vector) : Matrix :=
  imap (fun i row =>
          match i with
          | 0%nat => <[3%nat := x t]> row
          | 1%nat => <[3%nat := y t]> row
          | 2%nat => <[3%nat := z t]> row
          | _ => row
          end) m.

End mathutils.

Import mathutils.

(** ** bpy: the host's objects, as far as the add-on reads and writes them *)

Module bpy.

Inductive ObjectType : Type := MESH | CURVE | ARMATURE | EMPTY | LIGHT | CAMERA.

#[global] Instance ObjectType_eq_dec : EqDecision ObjectType.
Proof. solve_decision. Defined.

(** [obj.bound_box]: the eight corners of the box, in object coordinates. *)
Record BoundBox : Type := mkBoundBox {
  corner0 : Vector; corner1 : Vector; corner2 : Vector; corner3 : Vector;
  corner4 : Vector; corner5 : Vector; corner6 : Vector; corner7 : Vector
}.

(** [obj.ray_cast(origin, direction)] returns
    [(hit, location, normal, index)]. *)
Definition RayCast : Type := (bool * Vector * Vector * Z)%type.

Module Object.
Record t : Type := mk {
  name : string;
  type : ObjectType;
  matrix_world : Matrix;
  bound_box : BoundBox;
  scale : Vector;
  ray_cast : Vector -> Vector -> RayCast
}.
End Object.

(** An entry of [depsgraph.object_instances]. *)
Module DepsgraphObjectInstance.
Record t : Type := mk {
  is_instance : bool;
  instance_object : Object.t;
  object : Object.t;
  matrix_world : Matrix
}.
End DepsgraphObjectInstance.

(** A vertex group maps vertex indices to weights. *)
Abbreviation VertexGroup := (gmap nat float).

(** [group.add(index, weight, 'REPLACE')] *)
Definition VertexGroup_add (index : list nat) (weight : float) (group : VertexGroup)
  : VertexGroup :=
  foldl (fun g i => <[i := weight]> g) group index.

End bpy.

Import bpy.

(** ** numpy on arrays of three floats *)

Module np.

(** [np.pi], the double nearest to pi. *)
Definition pi : float := Fin (884279719003555 # 281474976710656).

Definition multiply (a b : Vector) : Vector :=
  mkVector (x a * x b) (y a * y b) (z a * z b).
Definition divide (a b : Vector) : Vector :=
  mkVector (x a / x b) (y a / y b) (z a / z b).
Definition subtract (a b : Vector) : Vector := Vector_sub a b.

Definition maximum3 (a b : Vector) : Vector :=
  mkVector (maximum (x a) (x b)) (maximum (y a) (y b)) (maximum (z a) (z b)).
Definition minimum3 (a b : Vector) : Vector :=
  mkVector (minimum (x a) (x b)) (minimum (y a) (y b)) (minimum (z a) (z b)).

(** [np.array(obj.bound_box)]: first row and the seven others. *)
Definition rows (b : BoundBox) : Vector * list Vector :=
  (corner0 b, [corner1 b; corner2 b; corner3 b; corner4 b; corner5 b;
               corner6 b; corner7 b]).

(** [np.amax(a, axis=0)] and [np.amin(a, axis=0)] *)
Definition amax (a : Vector * list Vector) : Vector := foldl maximum3 (fst a) (snd a).
Definition amin (a : Vector * list Vector) : Vector := foldl minimum3 (fst a) (snd a).

End np.

(** ** helpers.py *)

Module helpers.

(** The part of [bpy.types.Context] the ray cast reads: the evaluated
    object instances, and the viewport's map from mouse coordinates to the
    view ray ([view3d_utils.region_2d_to_vector_3d] and
    [view3d_utils.region_2d_to_origin_3d]). *)
Module Context.
Record t : Type := mk {
  object_instances : list DepsgraphObjectInstance.t;
  region_2d_to_vector_3d : Z * Z -> Vector;
  region_2d_to_origin_3d : Z * Z -> Vector
}.
End Context.

(** The named tuple [RayCastResult]; every field is [None] when nothing
    is hit. *)
Module RayCastResult.
Record t : Type := mk {
  object : option Object.t;
  intersection_point : option Vector;
  face_normal : option Vector;
  face_index : option Z
}.
End RayCastResult.

(** One turn of the loop of [mouse_ray_cast] over the object instances;
    the state is [(best_length_squared, best_obj_data)]. *)
Definition mouse_ray_cast_step (ray_origin_world ray_target_world : Vector)
    (state : float * RayCastResult.t) (object : DepsgraphObjectInstance.t)
  : outcome (float * RayCastResult.t) :=
  let '(best_length_squared, best_obj_data) := state in
  let '(obj, matrix_world) :=
    if DepsgraphObjectInstance.is_instance object
    then (DepsgraphObjectInstance.instance_object object,
          DepsgraphObjectInstance.matrix_world object)
    else (DepsgraphObjectInstance.object object,
          Object.matrix_world (DepsgraphObjectInstance.object object)) in
  if decide (Object.type obj = MESH) then
    inverse ← inverted matrix_world;
    let ray_origin_obj := matmul_vec inverse ray_origin_world in
    inverse' ← inverted matrix_world;
    let ray_target_obj := matmul_vec inverse' ray_target_world in
    let ray_direction_obj := Vector_sub ray_target_obj ray_origin_obj in
    let '(hit, intersection_point, normal, index) :=
      Object.ray_cast obj ray_origin_obj ray_direction_obj in
    if hit then
      let length_squared :=
        mathutils.length_squared (Vector_sub intersection_point ray_origin_obj) in
      if bool_decide (RayCastResult.object best_obj_data = None :> option Object.t)
         || ltb length_squared best_length_squared
      then Return (length_squared,
                   RayCastResult.mk (Some obj) (Some intersection_point)
                                    (Some normal) (Some index))
      else Return state
    else Return state
  else Return state.

Definition mouse_ray_cast (context : Context.t) (mouse_coords : Z * Z)
  : outcome RayCastResult.t :=
  let view_vector := Context.region_2d_to_vector_3d context mouse_coords in
  let ray_origin_world := Context.region_2d_to_origin_3d context mouse_coords in
  let ray_target_world := Vector_add ray_origin_world view_vector in
  best ← for_each (mouse_ray_cast_step ray_origin_world ray_target_world)
                  (Context.object_instances context)
                  (Fin (-1), RayCastResult.mk None None None None);
  Return (snd best).

(** [object_size]: the extent of the bounding box, times the scale. *)
Definition object_size (object : Object.t) : Vector :=
  let diff := np.subtract (np.amax (np.rows (Object.bound_box object)))
                          (np.amin (np.rows (Object.bound_box object))) in
  np.multiply diff (Object.scale object).

End helpers.

(** ** The point-in-polygon helper

    [operators.py] calls [helpers.inside_polygon], but [helpers.py] does
    not define it; this module follows section 4.2 of the specification. *)

Module polygon.

(** A point of the plane with finite coordinates. *)
Definition Point2 : Type := (Q * Q)%type.

Definition Qltb (a b : Q) : bool :=
  match a ?= b with Lt => true | _ => false end.

(** Modelled from the spec: the edges of the closed polygon, which are the
    pairs of consecutive points and the closing edge from the last point
    to the first. *)
Definition edges (polygon : list Point2) : list (Point2 * Point2) :=
  match polygon with
  | [] => []
  | first :: rest => zip polygon (rest ++ [first])
  end.

(** Modelled from the spec: the edge crosses the horizontal ray that leaves
    [point] towards +infinity in x.  Its ends lie on different sides of the
    ray's line and it meets that line strictly to the right of the point.
    An edge of length zero, or a horizontal one, crosses nothing. *)
Definition crosses (point : Point2) (edge : Point2 * Point2) : bool :=
  let '(px, py) := point in
  let '((x1, y1), (x2, y2)) := edge in
  xorb (Qltb py y1) (Qltb py y2)
  && Qltb px (x1 + (py - y1) * (x2 - x1) / (y2 - y1)).

(** Modelled from the spec: the number of edges that cross the ray. *)
Definition crossing_number (point : Point2) (polygon : list Point2) : nat :=
  length (List.filter (crosses point) (edges polygon)).

(** Modelled from the spec: the point lies exactly on the edge, ends
    included. *)
Definition on_edge (point : Point2) (edge : Point2 * Point2) : bool :=
  let '(px, py) := point in
  let '((x1, y1), (x2, y2)) := edge in
  Qeq_bool ((x2 - x1) * (py - y1)) ((y2 - y1) * (px - x1))
  && Qle_bool (Qmin x1 x2) px && Qle_bool px (Qmax x1 x2)
  && Qle_bool (Qmin y1 y2) py && Qle_bool py (Qmax y1 y2).

(** Modelled from the spec: [helpers.inside_polygon], which
    [ORTHOPEN_OT_foot_splint.execute] calls for every vertex and whose
    definition is missing from [helpers.py].  Following section 4.2: a
    crossing-number test along a horizontal ray towards +infinity in x, an
    odd count meaning inside; a point on an edge counts as inside; an edge
    of length zero adds no crossing; a polygon of fewer than three points
    is an [InvalidParameter] (section 7). *)
Definition inside_polygon (point : Point2) (polygon : list Point2) : outcome bool :=
  if (length polygon <? 3)%nat then Raise InvalidParameter
  else Return (existsb (on_edge point) (edges polygon)
               || Nat.odd (crossing_number point polygon)).

(** Modelled from the spec: [classify] of section 4.2, one answer per
    point, in order. *)
Definition classify (polygon : list Point2) (points : list Point2)
  : outcome (list bool) :=
  mapM (fun point => inside_polygon point polygon) points.

End polygon.

(** ** operators.py *)

Module operators.

(** A vertex of the active object's mesh, [bpy.types.MeshVertex]. *)
Module MeshVertex.
Record t : Type := mk { index : nat; co : Vector }.
End MeshVertex.

(** *** ORTHOPEN_OT_set_foot_pivot *)

(** The height of the deformation zone, the literal [DEFORM_ZONE = 0.02] in
    the loop of [_weight_paint]. *)
Definition DEFORM_ZONE : float := dec 0.02.

(** The weight of one vertex, as computed in the body of the loop of
    [_weight_paint]. *)
Definition vertex_weight (ankle_point co : Vector) : outcome float :=
  let diff_from_ankle := Vector_sub co ankle_point in
  if geb (z diff_from_ankle) (Fin 0) then
    ratio ← py_truediv (z diff_from_ankle) DEFORM_ZONE;
    Return (clip (Fin 1 - ratio) (Fin 0) (Fin 1))
  else
    Return (Fin 1).

(** [_weight_paint(self, foot, ankle_point)], reading the vertices of the
    active object: all weights are first set to zero, then every vertex
    gets its own. *)
Definition _weight_paint (vertices : list MeshVertex.t) (foot : VertexGroup)
    (ankle_point : Vector) : outcome VertexGroup :=
  let foot := VertexGroup_add (map MeshVertex.index vertices) (Fin 0) foot in
  for_each (fun foot vertex =>
              weight ← vertex_weight ankle_point (MeshVertex.co vertex);
              Return (VertexGroup_add [MeshVertex.index vertex] weight foot))
           vertices foot.

(** *** ORTHOPEN_OT_leg_prosthesis_generate *)

(** The operator's properties. *)
Module LegProsthesisGenerate.
Record t : Type := mk {
  max_circumference : float;
  height : float;
  clip_position_z : float
}.
End LegProsthesisGenerate.

Definition set_scale (object : Object.t) (scale : Vector) : Object.t :=
  Object.mk (Object.name object) (Object.type object) (Object.matrix_world object)
            (Object.bound_box object) scale (Object.ray_cast object).

Definition set_matrix_world (object : Object.t) (m : Matrix) : Object.t :=
  Object.mk (Object.name object) (Object.type object) m
            (Object.bound_box object) (Object.scale object) (Object.ray_cast object).

(** The smallest z-coordinate of the bounding box, scaled. *)
Definition get_z_min (object : Object.t) : float :=
  z (np.amin (np.rows (Object.bound_box object))) * z (Object.scale object).

(** [_adjust_scalings_and_sizes(self, cosmetics_main, fastening_clip)]
    for two distinct objects; the result is the two objects after the
    call.  [cosmetics_main.scale] is assigned before the clip's offset is
    computed, so [get_z_min cosmetics_main] reads the new scale. *)
Definition _adjust_scalings_and_sizes (self : LegProsthesisGenerate.t)
    (cosmetics_main fastening_clip : Object.t) : outcome (Object.t * Object.t) :=
  let X_Y_MAX := (LegProsthesisGenerate.max_circumference self / np.pi)%float in
  let target_size := mkVector X_Y_MAX X_Y_MAX (LegProsthesisGenerate.height self) in
  let current_size :=
    np.multiply (helpers.object_size cosmetics_main) (mkVector (Fin 2) (Fin 1) (Fin 1)) in
  let cosmetics_main :=
    set_scale cosmetics_main
      (np.divide (np.multiply (Object.scale cosmetics_main) target_size) current_size) in
  let offset :=
    (LegProsthesisGenerate.clip_position_z self + get_z_min cosmetics_main
     - get_z_min fastening_clip)%float in
  let fastening_clip :=
    set_matrix_world fastening_clip
      (set_translation (Object.matrix_world fastening_clip)
         (Vector_add (translation (Object.matrix_world fastening_clip))
                     (mkVector (Fin 0) (Fin 0) offset))) in
  Return (cosmetics_main, fastening_clip).

End operators.

(** ** A triangle mesh and its ray cast

    [obj.ray_cast] is Blender's.  The loop of [mouse_ray_cast] takes it
    from the object, as a function; this module gives the objects of the
    examples one, following section 4.1 of the specification. *)

Module Mesh.

(** A triangle with its three corners and its normal, in object
    coordinates; a mesh is the list of its triangles, and the index of a
    face is its position. *)
Record Face : Type := mkFace { a : Vector; b : Vector; c : Vector; normal : Vector }.
Definition t : Type := list Face.

(** Modelled from the spec: the Moeller-Trumbore test, giving the
    parameter of the point where the ray meets the triangle, if it does at
    a positive parameter. *)
Definition intersect_ray_tri (origin direction : Vector) (f : Face) : option float :=
  let e1 := Vector_sub (b f) (a f) in
  let e2 := Vector_sub (c f) (a f) in
  let h := cross direction e2 in
  let det := dot e1 h in
  if eqb det (Fin 0) then None else
  let s := Vector_sub origin (a f) in
  let u := (dot s h / det)%float in
  if ltb u (Fin 0) || ltb (Fin 1) u then None else
  let q := cross s e1 in
  let v := (dot direction q / det)%float in
  if ltb v (Fin 0) || ltb (Fin 1) (u + v) then None else
  let t := (dot e2 q / det)%float in
  if ltb (Fin 0) t then Some t else None.

(** Modelled from the spec: the nearest face along the ray, the first one
    winning a tie. *)
Fixpoint closest (origin direction : Vector) (faces : list Face) (index : Z)
    (best : option (float * Face * Z)) : option (float * Face * Z) :=
  match faces with
  | [] => best
  | f :: faces' =>
      let best' :=
        match intersect_ray_tri origin direction f, best with
        | Some t, Some (t0, _, _) => if ltb t t0 then Some (t, f, index) else best
        | Some t, None => Some (t, f, index)
        | None, _ => best
        end in
      closest origin direction faces' (index + 1)%Z best'
  end.

(** Modelled from the spec: the host's [Object.ray_cast], which belongs
    to Blender and not to the add-on.  Following section 4.1: every
    triangle is tested and the intersection with the smallest positive
    parameter along the ray is returned; without a hit the answer is
    [(False, (0,0,0), (0,0,0), -1)]. *)
Definition ray_cast (mesh : t) (origin direction : Vector) : RayCast :=
  match closest origin direction mesh 0%Z None with
  | Some (t, f, index) =>
      (true, Vector_add origin (scaled t direction), normal f, index)
  | None =>
      (false, mkVector (Fin 0) (Fin 0) (Fin 0), mkVector (Fin 0) (Fin 0) (Fin 0), (-1)%Z)
  end.

End Mesh.

Import helpers operators polygon.

(** ** Vocabulary of the statements *)

(** Blender numbers the vertices of a mesh by their position. *)
Definition well_indexed (vertices : list MeshVertex.t) : Prop :=
  forall i v, vertices !! i = Some v -> MeshVertex.index v = i.

(** The weight at elevation [d] above the pivot: what the two branches of
    the loop body compute. *)
Definition falloff (d : float) : float :=
  if geb d (Fin 0) then clip (Fin 1 - d / DEFORM_ZONE) (Fin 0) (Fin 1) else Fin 1.

Definition elevation (ankle_point co : Vector) : float := (z co - z ankle_point)%float.

Inductive Axis : Type := AxisX | AxisY | AxisZ.

Definition component (axis : Axis) (v : Vector) : float :=
  match axis with AxisX => x v | AxisY => y v | AxisZ => z v end.

(** The extent of the bounding box: largest minus smallest corner
    coordinate, per axis. *)
Definition extent (object : Object.t) : Vector :=
  np.subtract (np.amax (np.rows (Object.bound_box object)))
              (np.amin (np.rows (Object.bound_box object))).

(** The target dimensions: the diameter of the circle whose circumference
    is [max_circumference], twice, and the height. *)
Definition target_size (self : LegProsthesisGenerate.t) : Vector :=
  let diameter := (LegProsthesisGenerate.max_circumference self / np.pi)%float in
  mkVector diameter diameter (LegProsthesisGenerate.height self).

(** The calf is modelled as a half along x. *)
Definition doubling : Vector := mkVector (Fin 2) (Fin 1) (Fin 1).

(** The current physical size, the half doubled. *)
Definition current_size (object : Object.t) : Vector :=
  np.multiply (object_size object) doubling.

Definition is_4x4 (m : Matrix) : Prop :=
  length m = 4%nat /\ Forall (fun row => length row = 4%nat) m.

(** The squared distance, in world coordinates, from the ray's origin to
    a point given in the coordinates of [object]. *)
Definition world_length_squared (object : Object.t) (ray_origin_world point : Vector)
  : float :=
  length_squared (Vector_sub (matmul_vec (Object.matrix_world object) point)
                             ray_origin_world).

(** The object and matrix that the loop picks for an instance. *)
Definition resolved (object : DepsgraphObjectInstance.t) : Object.t * Matrix :=
  if DepsgraphObjectInstance.is_instance object
  then (DepsgraphObjectInstance.instance_object object,
        DepsgraphObjectInstance.matrix_world object)
  else (DepsgraphObjectInstance.object object,
        Object.matrix_world (DepsgraphObjectInstance.object object)).

(** A result with the object replaced by its name. *)
Definition named (result : outcome RayCastResult.t)
  : outcome (option string * option Vector * option Vector * option Z) :=
  r ← result;
  Return (Object.name <$> RayCastResult.object r, RayCastResult.intersection_point r,
          RayCastResult.face_normal r, RayCastResult.face_index r).

(** The point is [a + t (b - a)] for some [t] between 0 and 1. *)
Definition on_segment (point : Point2) (edge : Point2 * Point2) : Prop :=
  exists t : Q,
    0 <= t /\ t <= 1
    /\ fst point == fst (fst edge) + t * (fst (snd edge) - fst (fst edge))
    /\ snd point == snd (fst edge) + t * (snd (snd edge) - snd (fst edge)).

Definition on_boundary (point : Point2) (polygon : list Point2) : Prop :=
  exists edge, In edge (edges polygon) /\ on_segment point edge.

(** ** Concrete scenes and objects used by the examples *)

Module scene.

Definition vec (a b c : Q) : Vector := mkVector (dec a) (dec b) (dec c).

(** The bounding box with opposite corners [lo] and [hi], its corners in
    Blender's order. *)
Definition box (lo hi : Vector) : BoundBox :=
  mkBoundBox (mkVector (x lo) (y lo) (z lo)) (mkVector (x lo) (y lo) (z hi))
             (mkVector (x lo) (y hi) (z hi)) (mkVector (x lo) (y hi) (z lo))
             (mkVector (x hi) (y lo) (z lo)) (mkVector (x hi) (y lo) (z hi))
             (mkVector (x hi) (y hi) (z hi)) (mkVector (x hi) (y hi) (z lo)).

(** The matrix of a pure scaling. *)
Definition scaling (sx sy sz : Q) : Matrix :=
  [ [Fin sx; Fin 0; Fin 0; Fin 0];
    [Fin 0; Fin sy; Fin 0; Fin 0];
    [Fin 0; Fin 0; Fin sz; Fin 0];
    [Fin 0; Fin 0; Fin 0; Fin 1] ].

(** A square of side 2 at height [h], two triangles, facing down. *)
Definition square_at (h : Q) : Mesh.t :=
  [ Mesh.mkFace (vec (-1) (-1) h) (vec (-1) 1 h) (vec 1 1 h) (vec 0 0 (-1));
    Mesh.mkFace (vec (-1) (-1) h) (vec 1 1 h) (vec 1 (-1) h) (vec 0 0 (-1)) ].

Definition mesh_object (name : string) (mesh : Mesh.t) (h s : Q) : Object.t :=
  Object.mk name MESH (scaling s s s) (box (vec (-1) (-1) h) (vec 1 1 h))
            (vec s s s) (Mesh.ray_cast mesh).

(** The nearer surface: a square at world height 2, unscaled. *)
Definition near : Object.t := mesh_object "near" (square_at 2) 2 1.

(** The farther surface: a square at local height 0.5 in an object
    scaled ten times, so at world height 5. *)
Definition far_x10 : Object.t := mesh_object "far_x10" (square_at 0.5) 0.5 10.

(** A mesh object whose matrix has no inverse (scaled by zero along z). *)
Definition flattened : Object.t :=
  Object.mk "flattened" MESH (scaling 1 1 0) (box (vec (-1) (-1) 2) (vec 1 1 2))
            (vec 1 1 0) (Mesh.ray_cast (square_at 2)).

Definition instance_of (o : Object.t) : DepsgraphObjectInstance.t :=
  DepsgraphObjectInstance.mk false o o (Object.matrix_world o).

(** A view from [(0.5, 0.25, 0)] straight up the z axis. *)
Definition context_of (objects : list Object.t) : helpers.Context.t :=
  helpers.Context.mk (map instance_of objects)
                     (fun _ => vec 0 0 1) (fun _ => vec 0.5 0.25 0).

End scene.

Definition view_origin : Vector := scene.vec 0.5 0.25 0.

Definition vertex_at (index : nat) (height : Q) : MeshVertex.t :=
  MeshVertex.mk index (scene.vec 0 0 height).

(** Five vertices at heights -1, 0, 0.01, 0.02 and 1. *)
Definition five_vertices : list MeshVertex.t :=
  [vertex_at 0 (-1); vertex_at 1 0; vertex_at 2 0.01; vertex_at 3 0.02; vertex_at 4 1].

(** The default measures but for the circumference, 0.35 pi. *)
Definition measures (height : Q) : LegProsthesisGenerate.t :=
  LegProsthesisGenerate.mk (dec 0.35 * np.pi)%float (dec height) (dec 0.1).

(** Half a calf: 0.1 wide (to be doubled), 0.1 deep, 0.2 high. *)
Definition half_calf : Object.t :=
  Object.mk "cosmetics_main" MESH (scene.scaling 1 1 1)
            (scene.box (scene.vec 0 (-0.05) (-0.1)) (scene.vec 0.1 0.05 0.1))
            (scene.vec 1 1 1) (Mesh.ray_cast []).

(** The fastening clip. *)
Definition clip_part : Object.t :=
  Object.mk "clip" MESH (scene.scaling 1 1 1)
            (scene.box (scene.vec (-0.01) (-0.01) (-0.02)) (scene.vec 0.01 0.01 0.02))
            (scene.vec 1 1 1) (Mesh.ray_cast []).

(** A sheet: no extent along x. *)
Definition sheet : Object.t :=
  Object.mk "cosmetics_main" MESH (scene.scaling 1 1 1)
            (scene.box (scene.vec 0 (-0.05) (-0.1)) (scene.vec 0 0.05 0.1))
            (scene.vec 1 1 1) (Mesh.ray_cast []).

(** The half calf, mirrored along x. *)
Definition mirrored_calf : Object.t := set_scale half_calf (scene.vec (-1) 1 1).



Definition square : list Point2 := [(0, 0); (10, 0); (10, 10); (0, 10)].

(** * More of the add-on: names, selection and import *)

(** ** Vocabulary of the further properties: the ray cast *)

(** What one object instance contributes to the loop of [mouse_ray_cast]
    when it is a mesh, its matrix has an inverse and the ray hits it: the
    squared length that the loop compares, and the result it would store. *)
Definition candidate_hit (ray_origin_world ray_target_world : Vector)
    (object : DepsgraphObjectInstance.t) : option (float * RayCastResult.t) :=
  let '(obj, matrix_world) := resolved object in
  if decide (Object.type obj = MESH) then
    match inverted matrix_world with
    | Return inverse =>
        let ray_origin_obj := matmul_vec inverse ray_origin_world in
        let ray_target_obj := matmul_vec inverse ray_target_world in
        let '(hit, intersection_point, normal, index) :=
          Object.ray_cast obj ray_origin_obj (Vector_sub ray_target_obj ray_origin_obj) in
        if hit then
          Some (length_squared (Vector_sub intersection_point ray_origin_obj),
                RayCastResult.mk (Some obj) (Some intersection_point)
                                 (Some normal) (Some index))
        else None
    | Raise _ => None
    end
  else None.

(** The hits of a context's instances, in the order of the instances. *)
Definition hits_of (context : helpers.Context.t) (mouse_coords : Z * Z)
  : list (float * RayCastResult.t) :=
  let origin := helpers.Context.region_2d_to_origin_3d context mouse_coords in
  let target :=
    Vector_add origin (helpers.Context.region_2d_to_vector_3d context mouse_coords) in
  omap (candidate_hit origin target) (helpers.Context.object_instances context).

(** The instance does not stop the loop: it is no mesh, or its matrix has
    a determinant other than zero. *)
Definition castable (object : DepsgraphObjectInstance.t) : Prop :=
  Object.type (fst (resolved object)) = MESH ->
  neb (determinant (snd (resolved object))) (Fin 0) = true.

(** The state of the loop after one more hit: the new hit replaces the
    stored one when nothing is stored yet or when it is strictly nearer. *)
Definition pick (state hit : float * RayCastResult.t) : float * RayCastResult.t :=
  if bool_decide (RayCastResult.object (snd state) = None :> option Object.t)
     || ltb (fst hit) (fst state)
  then hit else state.

Definition no_result : RayCastResult.t := RayCastResult.mk None None None None.

Definition finite_vector (v : Vector) : Prop :=
  is_finite (x v) = true /\ is_finite (y v) = true /\ is_finite (z v) = true.

Definition is_number (a : float) : bool :=
  match a with NaN => false | _ => true end.

(** The scene of the two squares, the unscaled one first. *)
Definition two_squares : helpers.Context.t :=
  scene.context_of [scene.near; scene.far_x10].


(** ** Exceptions of Python that the further code raises *)

Module builtins.

(** [AssertionError] and [IndexError], beside the exceptions of [exn]. *)
Inductive exception : Type :=
| AssertionError
| IndexError
| Other (e : exn).

Inductive raising (A : Type) : Type :=
| Done (a : A)
| Raised (e : exception).

Arguments Done {A} a.
Arguments Raised {A} e.

#[global] Instance raising_ret : MRet raising := fun A a => Done a.
#[global] Instance raising_bind : MBind raising := fun A B k m =>
  match m with
  | Done a => k a
  | Raised e => Raised e
  end.

(** A call whose exceptions are those of [exn]. *)
Definition call {A : Type} (m : outcome A) : raising A :=
  match m with
  | Return a => Done a
  | Raise e => Raised (Other e)
  end.

(** [assert condition] *)
Definition assert_ (condition : bool) : raising unit :=
  if condition then Done tt else Raised AssertionError.

End builtins.

(** ** ORTHOPEN_OT_set_foot_pivot.execute: from the selection to the weights *)

Module set_foot_pivot.

Import builtins.

(** A vertex of the mesh with its selection flag. *)
Record SelectableVertex : Type := mkSelectable {
  vertex : MeshVertex.t;
  select : bool
}.

(** Lines 121 to 126 of [execute]: the coordinates of the selected
    vertices are collected, exactly one must be selected, and the weight
    paint is run with a copy of that vertex as the ankle.  The result is
    the ankle point and the painted group.  The calls into the host around
    these lines (mode changes, the armature, the modifiers) are not part
    of this definition. *)
Definition paint_from_selection (vertices : list SelectableVertex) (foot : VertexGroup)
  : raising (Vector * VertexGroup) :=
  let selected_verts :=
    map (fun v => MeshVertex.co (vertex v)) (List.filter select vertices) in
  _ ← assert_ (length selected_verts =? 1)%nat;
  match selected_verts with
  | ankle_point :: _ =>
      foot' ← call (_weight_paint (map vertex vertices) foot ankle_point);
      Done (ankle_point, foot')
  | [] => Raised IndexError
  end.

End set_foot_pivot.

(** ** Vocabulary of the further properties: the weight paint *)

(** The elevation of a vertex over the ankle. *)
Definition elevation_of (ankle_point : Vector) (v : MeshVertex.t) : float :=
  elevation ankle_point (MeshVertex.co v).

(** A mesh of three vertices, the middle one selected. *)
Definition marked_leg : list set_foot_pivot.SelectableVertex :=
  [ set_foot_pivot.mkSelectable (vertex_at 0 (-1)) false;
    set_foot_pivot.mkSelectable (vertex_at 1 0.01) true;
    set_foot_pivot.mkSelectable (vertex_at 2 1) false ].


(** ** Vocabulary of the further properties: sizes and the fit *)

(** The eight corners of the bounding box are finite. *)
Definition finite_box (b : BoundBox) : Prop :=
  Forall finite_vector (fst (np.rows b) :: snd (np.rows b)).


(** ** Python strings *)

Module str.

Local Open Scope string_scope.

Fixpoint drop (n : nat) (s : string) : string :=
  match n, s with
  | S n', String _ s' => drop n' s'
  | _, _ => s
  end.

(** [sub in s] *)
Fixpoint contains (sub s : string) : bool :=
  String.prefix sub s
  || match s with
     | String _ s' => contains sub s'
     | EmptyString => false
     end.

(** One more character in front of the first part. *)
Definition extend (c : Ascii.ascii) (parts : list string) : list string :=
  match parts with
  | part :: parts' => String c part :: parts'
  | [] => [String c ""]
  end.

(** The parts of [s] between the occurrences of a separator that is not
    empty, found from left to right; [fuel] bounds the number of steps. *)
Fixpoint split_from (fuel : nat) (sep s : string) : list string :=
  match fuel, s with
  | S fuel', String c s' =>
      if String.prefix sep s
      then "" :: split_from fuel' sep (drop (String.length sep) s)
      else extend c (split_from fuel' sep s')
  | _, _ => [""]
  end.

(** The length of the string is fuel enough. *)
Definition parts (sep s : string) : list string :=
  split_from (String.length s) sep s.

(** [s.split(sep)]; an empty separator is a [ValueError]. *)
Definition split (sep s : string) : outcome (list string) :=
  match sep with
  | EmptyString => Raise ValueError
  | _ => Return (parts sep s)
  end.

(** [sep.join(parts)] *)
Fixpoint join (sep : string) (parts : list string) : string :=
  match parts with
  | [] => ""
  | [part] => part
  | part :: parts' => part ++ sep ++ join sep parts'
  end.

(** The lower case of a character of ASCII; the others are left as they
    are. *)
Definition lower_char (c : Ascii.ascii) : Ascii.ascii :=
  let n := Ascii.nat_of_ascii c in
  if (65 <=? n)%nat && (n <=? 90)%nat then Ascii.ascii_of_nat (n + 32) else c.

(** [s.lower()], for strings of ASCII *)
Fixpoint lower (s : string) : string :=
  match s with
  | EmptyString => EmptyString
  | String c s' => String (lower_char c) (lower s')
  end.

End str.

(** ** helpers.py: the name under which an operator is registered *)

Module naming.

Local Open Scope string_scope.

(** [mangle_operator_name(class_name)]; a list that [split] returns is
    never empty, so its first and last elements exist. *)
Definition mangle_operator_name (class_name : string) : outcome string :=
  class_name_list ← str.split "_" class_name;
  if bool_decide ("OT" ∈ class_name_list) then
    parts ← str.split "OT_" class_name;
    Return (str.lower (List.hd "" class_name_list) ++ "."
            ++ str.lower (List.last parts ""))
  else Raise ValueError.

End naming.


(** ** ORTHOPEN_OT_leg_prosthesis_generate._import_from_assets_folder *)

Module import_assets.

Import builtins.

Local Open Scope string_scope.

(** The two names that the loop may bind; [None] is a name that is not in
    [locals()]. *)
Record Locals : Type := mkLocals {
  cosmetics_main : option Object.t;
  fastening_clip : option Object.t
}.

(** One turn of the loop over [data_to.objects], on the objects of the
    scene's collection and the locals.  An entry that is [None] is passed
    over; the name of any other is matched against both patterns, a match
    rebinds the local, and the object is linked to the collection. *)
Definition link_step (state : list Object.t * Locals) (entry : option Object.t)
  : list Object.t * Locals :=
  match entry with
  | None => state
  | Some obj =>
      let '(objects, locals) := state in
      let locals :=
        if str.contains "cosmetics_main" (Object.name obj)
        then mkLocals (Some obj) (fastening_clip locals) else locals in
      let locals :=
        if str.contains "clip" (Object.name obj)
        then mkLocals (cosmetics_main locals) (Some obj) else locals in
      ((objects ++ [obj])%list, locals)
  end.

(** [_import_from_assets_folder], from the objects that the library gave
    ([data_to.objects], with [None] for what could not be loaded) and the
    objects of the scene's collection: the collection afterwards, and the
    two parts or the [AssertionError]. *)
Definition _import_from_assets_folder
    (data_to_objects : list (option Object.t)) (objects : list Object.t)
  : list Object.t * raising (Object.t * Object.t) :=
  let '(objects, locals) :=
    foldl link_step (objects, mkLocals None None) data_to_objects in
  (objects,
   match cosmetics_main locals, fastening_clip locals with
   | Some cosmetics, Some clip => Done (cosmetics, clip)
   | _, _ => Raised AssertionError
   end).

End import_assets.

(** ** Vocabulary of the further properties: the import *)

(** The object is the last one of the entries whose name holds the
    pattern. *)
Definition last_match (pattern : string) (entries : list (option Object.t))
    (obj : Object.t) : Prop :=
  exists before after,
    entries = (before ++ Some obj :: after)%list
    /\ str.contains pattern (Object.name obj) = true
    /\ forall other, Some other ∈ after ->
         str.contains pattern (Object.name other) = false.

(** No entry's name holds the pattern. *)
Definition no_match (pattern : string) (entries : list (option Object.t)) : Prop :=
  forall other, Some other ∈ entries ->
    str.contains pattern (Object.name other) = false.

(** What a local holds after the loop: the last match, if there is one. *)
Definition bound_to (pattern : string) (entries : list (option Object.t))
    (local : option Object.t) : Prop :=
  match local with
  | Some obj => last_match pattern entries obj
  | None => no_match pattern entries
  end.

(** * Properties *)

(** ** Floats *)

Section float_facts.

Implicit Types a b c : float.

Lemma feq_refl a : a ≈ a.
Proof. destruct a; simpl; auto with qarith. Qed.

Lemma feq_sym a b : a ≈ b -> b ≈ a.
Proof. destruct a, b; simpl; auto with qarith. Qed.

Lemma feq_trans a b c : a ≈ b -> b ≈ c -> a ≈ c.
Proof. destruct a, b, c; simpl; try tauto. apply Qeq_trans. Qed.

Lemma ltb_not_geb a b : ltb a b = true -> geb a b = false.
Proof.
  unfold ltb, geb, leb.
  destruct a as [p| | |], b as [q| | |]; simpl; try discriminate; try reflexivity.
  rewrite <- (Qcompare_antisym p q). destruct (p ?= q); simpl; congruence.
Qed.

End float_facts.

(** ** The weight paint *)

Section weight_paint.

Lemma vertex_weight_falloff ankle_point co :
  vertex_weight ankle_point co = Return (falloff (elevation ankle_point co)).
Proof.
  unfold vertex_weight, falloff, elevation, py_truediv. simpl.
  now destruct (geb _ _).
Qed.

Lemma lookup_VertexGroup_add (index : list nat) w (g : VertexGroup) j :
  VertexGroup_add index w g !! j = if decide (j ∈ index) then Some w else g !! j.
Proof.
  unfold VertexGroup_add. revert g.
  induction index as [|i index IH]; intros g; simpl.
  - destruct (decide (j ∈ [])) as [Hin|Hin]; [set_solver | done].
  - rewrite IH. destruct (decide (j ∈ index)) as [Hin|Hin].
    + rewrite decide_True by set_solver. done.
    + destruct (decide (i = j)) as [->|Hne].
      * rewrite lookup_insert_eq, decide_True by set_solver. done.
      * rewrite lookup_insert_ne by done. rewrite decide_False; [done|].
        rewrite elem_of_cons. intros [->|?]; done.
Qed.

(** The loop, started at a suffix of the vertices whose first index is [k]. *)
Lemma weight_loop ankle_point (vertices : list MeshVertex.t) :
  forall (k : nat) (foot : VertexGroup),
    (forall i v, vertices !! i = Some v -> MeshVertex.index v = (k + i)%nat) ->
    exists foot' : VertexGroup,
      for_each (fun foot vertex =>
                  weight ← vertex_weight ankle_point (MeshVertex.co vertex);
                  Return (VertexGroup_add [MeshVertex.index vertex] weight foot))
               vertices foot = Return foot'
      /\ (forall i v, vertices !! i = Some v ->
            foot' !! (k + i)%nat
            = Some (falloff (elevation ankle_point (MeshVertex.co v))))
      /\ (forall j, (j < k \/ k + length vertices <= j)%nat -> foot' !! j = foot !! j).
Proof.
  induction vertices as [|v vertices IH]; intros k foot Hidx.
  - exists foot. split; [done|]. split; [intros i v H; discriminate | done].
  - simpl. rewrite vertex_weight_falloff. simpl.
    destruct (IH (S k) (VertexGroup_add [MeshVertex.index v]
                          (falloff (elevation ankle_point (MeshVertex.co v))) foot))
      as (foot' & Hrun & Hin & Hout).
    { intros i u Hu. rewrite (Hidx (S i) u Hu). lia. }
    exists foot'. split; [exact Hrun|]. split.
    + intros [|i] u Hu; simpl in Hu.
      * injection Hu as <-. rewrite Hout by lia.
        rewrite lookup_VertexGroup_add, (Hidx 0%nat v eq_refl).
        rewrite decide_True by set_solver. done.
      * replace (k + S i)%nat with (S k + i)%nat by lia. now apply Hin.
    + intros j Hj. rewrite Hout by (simpl in Hj; lia).
      rewrite lookup_VertexGroup_add, (Hidx 0%nat v eq_refl).
      rewrite decide_False; [done|]. simpl in Hj.
      rewrite list_elem_of_singleton. lia.
Qed.

Lemma well_indexed_elem_of vertices j :
  well_indexed vertices ->
  j ∈ map MeshVertex.index vertices -> (j < length vertices)%nat.
Proof.
  intros Hwf Hin. apply list_elem_of_In, in_map_iff in Hin as (v & <- & Hv).
  apply list_elem_of_In, list_elem_of_lookup in Hv as (i & Hi).
  rewrite (Hwf i v Hi). eapply lookup_lt_Some; eauto.
Qed.

(** What the weight paint leaves in the group. *)
Lemma weight_paint_spec vertices (foot : VertexGroup) ankle_point :
  well_indexed vertices ->
  exists foot' : VertexGroup,
    _weight_paint vertices foot ankle_point = Return foot'
    /\ (forall i v, vertices !! i = Some v ->
          foot' !! i = Some (falloff (elevation ankle_point (MeshVertex.co v))))
    /\ (forall j, (length vertices <= j)%nat -> foot' !! j = foot !! j).
Proof.
  intros Hwf. unfold _weight_paint.
  destruct (weight_loop ankle_point vertices 0%nat
              (VertexGroup_add (map MeshVertex.index vertices) (Fin 0) foot))
    as (foot' & Hrun & Hin & Hout); [exact Hwf|].
  exists foot'. split; [exact Hrun|]. split.
  - intros i v Hv. exact (Hin i v Hv).
  - intros j Hj. rewrite Hout by (simpl; lia).
    rewrite lookup_VertexGroup_add. rewrite decide_False; [done|].
    intros Hin'. apply (well_indexed_elem_of _ _ Hwf) in Hin'. lia.
Qed.

(** The loop has no failing turn, whatever the indices are. *)
Lemma weight_loop_returns ankle_point (vertices : list MeshVertex.t) :
  forall foot : VertexGroup,
    exists foot' : VertexGroup,
      for_each (fun foot vertex =>
                  weight ← vertex_weight ankle_point (MeshVertex.co vertex);
                  Return (VertexGroup_add [MeshVertex.index vertex] weight foot))
               vertices foot = Return foot'.
Proof.
  induction vertices as [|v vertices IH]; intros foot; simpl.
  - now exists foot.
  - rewrite vertex_weight_falloff. simpl. apply IH.
Qed.

(** [_weight_paint] has no input for the height of the deformation zone
    and no failing path: the height is the literal 0.02, which is positive,
    and for every vertex sequence, vertex group and pivot the call
    returns a vertex group. *)
Lemma weight_paint_returns :
  is_positive DEFORM_ZONE
  /\ forall (vertices : list MeshVertex.t) (foot : VertexGroup) (ankle_point : Vector),
       exists foot' : VertexGroup, _weight_paint vertices foot ankle_point = Return foot'.
Proof.
  split; [reflexivity|].
  intros vertices foot ankle_point. unfold _weight_paint.
  now apply weight_loop_returns.
Qed.

End weight_paint.

Section weight_paint_claims.

Lemma five_vertices_well_indexed : well_indexed five_vertices.
Proof.
  intros i v H.
  do 5 (destruct i as [|i]; [injection H as <-; reflexivity|]).
  discriminate.
Qed.

(** C3.  For every vertex sequence (numbered by position), vertex group and
    pivot, [_weight_paint] returns, and leaves at each vertex's index the
    weight of that vertex: with [d] the vertex's height minus the pivot's,
    1 when [d < 0] and [clip (1 - d / DEFORM_ZONE) 0 1] when [d >= 0], the
    height of the zone being the source's 0.02; indices beyond the vertices
    are left as they were.  With the pivot at height 0, vertices at heights
    -1, 0, 0.01, 0.02 and 1 get the weights 1, 1, 0.5, 0 and 0. *)
Theorem weight_paint_weights :
  (forall (vertices : list MeshVertex.t) (foot : VertexGroup) (ankle_point : Vector),
     well_indexed vertices ->
     exists foot' : VertexGroup,
       _weight_paint vertices foot ankle_point = Return foot'
       /\ (forall i v, vertices !! i = Some v ->
             let d := (z (MeshVertex.co v) - z ankle_point)%float in
             (ltb d (Fin 0) = true -> foot' !! i = Some (Fin 1))
             /\ (geb d (Fin 0) = true ->
                 foot' !! i = Some (clip (Fin 1 - d / DEFORM_ZONE) (Fin 0) (Fin 1))))
       /\ (forall j, (length vertices <= j)%nat -> foot' !! j = foot !! j))
  /\ DEFORM_ZONE = dec 0.02
  /\ _weight_paint five_vertices ∅ (scene.vec 0 0 0)
     = Return (list_to_map [(0, Fin 1); (1, Fin 1); (2, dec 0.5); (3, Fin 0); (4, Fin 0)]%nat).
Proof.
  split; [|split; [reflexivity|]].
  - intros vertices foot ankle_point Hwf.
    destruct (weight_paint_spec vertices foot ankle_point Hwf)
      as (foot' & Hrun & Hin & Hout).
    exists foot'. split; [exact Hrun|]. split; [|exact Hout].
    intros i v Hv d. rewrite (Hin i v Hv). unfold falloff, elevation. fold d. split.
    + intros Hd. now rewrite (ltb_not_geb _ _ Hd).
    + intros Hd. now rewrite Hd.
  - vm_compute. reflexivity.
Qed.

Lemma weight_paint_weights_witness :
  well_indexed five_vertices
  /\ exists foot' : VertexGroup,
       _weight_paint five_vertices ∅ (scene.vec 0 0 0) = Return foot'
       /\ (forall i v, five_vertices !! i = Some v ->
             let d := (z (MeshVertex.co v) - z (scene.vec 0 0 0))%float in
             (ltb d (Fin 0) = true -> foot' !! i = Some (Fin 1))
             /\ (geb d (Fin 0) = true ->
                 foot' !! i = Some (clip (Fin 1 - d / DEFORM_ZONE) (Fin 0) (Fin 1))))
       /\ (forall j, (length five_vertices <= j)%nat -> foot' !! j = (∅ : VertexGroup) !! j).
Proof.
  split.
  - exact five_vertices_well_indexed.
  - apply (proj1 weight_paint_weights five_vertices ∅ (scene.vec 0 0 0)).
    exact five_vertices_well_indexed.
Defined.

End weight_paint_claims.

(** ** Floats up to [≈] *)

Section float_setoid.

#[global] Instance feq_equiv : Equivalence feq.
Proof.
  split; [exact feq_refl | exact feq_sym | exact feq_trans].
Qed.

Ltac float_cases :=
  repeat match goal with
         | a : float |- _ => destruct a
         end; simpl in *; try tauto.

#[global] Instance opp_proper : Proper (feq ==> feq) opp.
Proof. intros a a' Ha. float_cases. now rewrite Ha. Qed.

#[global] Instance add_proper : Proper (feq ==> feq ==> feq) add.
Proof.
  intros a a' Ha b b' Hb. float_cases.
  rewrite !Qred_correct. now rewrite Ha, Hb.
Qed.

#[global] Instance sub_proper : Proper (feq ==> feq ==> feq) sub.
Proof. intros a a' Ha b b' Hb. unfold sub. now rewrite Ha, Hb. Qed.

#[global] Instance mul_proper : Proper (feq ==> feq ==> feq) mul.
Proof.
  intros a a' Ha b b' Hb. float_cases;
    rewrite ?Qred_correct, ?Ha, ?Hb; try reflexivity; apply feq_refl.
Qed.

#[global] Instance div_proper : Proper (feq ==> feq ==> feq) div.
Proof.
  intros a a' Ha b b' Hb. float_cases; rewrite ?Ha, ?Hb;
    try apply feq_refl; try reflexivity.
  destruct (Qeq_bool _ 0); [apply feq_refl|].
  simpl. rewrite !Qred_correct. now rewrite Ha, Hb.
Qed.

#[global] Instance compare_proper : Proper (feq ==> feq ==> eq) Float.compare.
Proof. intros a a' Ha b b' Hb. float_cases. now rewrite Ha, Hb. Qed.

#[global] Instance ltb_proper : Proper (feq ==> feq ==> eq) ltb.
Proof. intros a a' Ha b b' Hb. unfold ltb. now rewrite Ha, Hb. Qed.

#[global] Instance leb_proper : Proper (feq ==> feq ==> eq) leb.
Proof. intros a a' Ha b b' Hb. unfold leb. now rewrite Ha, Hb. Qed.

#[global] Instance maximum_proper : Proper (feq ==> feq ==> feq) maximum.
Proof.
  intros a a' Ha b b' Hb.
  assert (Hlt : ltb a b = ltb a' b') by now rewrite Ha, Hb.
  destruct a, a', b, b'; simpl in Ha, Hb; try tauto; unfold maximum;
    rewrite Hlt; clear Hlt; destruct (ltb _ _); simpl; auto.
Qed.

#[global] Instance minimum_proper : Proper (feq ==> feq ==> feq) minimum.
Proof.
  intros a a' Ha b b' Hb.
  assert (Hlt : ltb b a = ltb b' a') by now rewrite Ha, Hb.
  destruct a, a', b, b'; simpl in Ha, Hb; try tauto; unfold minimum;
    rewrite Hlt; clear Hlt; destruct (ltb _ _); simpl; auto.
Qed.

Lemma maximum_idem (a : float) : maximum a a ≈ a.
Proof.
  destruct a as [p| | |]; unfold maximum, ltb; simpl; auto.
  rewrite (proj1 (Qeq_alt p p) (Qeq_refl p)). apply Qeq_refl.
Qed.

Lemma minimum_idem (a : float) : minimum a a ≈ a.
Proof.
  destruct a as [p| | |]; unfold minimum, ltb; simpl; auto.
  rewrite (proj1 (Qeq_alt p p) (Qeq_refl p)). apply Qeq_refl.
Qed.

Lemma maximum_le (a b : float) : leb a b = true -> maximum a b ≈ b /\ maximum b a ≈ b.
Proof.
  unfold leb, maximum, ltb.
  destruct a as [p| | |], b as [q| | |]; simpl; try discriminate; intros H;
    try (split; exact I); try (split; apply Qeq_refl).
  revert H. rewrite <- (Qcompare_antisym p q).
  destruct (p ?= q) eqn:Hc; simpl; try discriminate; split; try apply Qeq_refl.
  now apply Qeq_alt.
Qed.

Lemma minimum_le (a b : float) : leb a b = true -> minimum a b ≈ a /\ minimum b a ≈ a.
Proof.
  unfold leb, minimum, ltb.
  destruct a as [p| | |], b as [q| | |]; simpl; try discriminate; intros H;
    try (split; exact I); try (split; apply Qeq_refl).
  revert H. rewrite <- (Qcompare_antisym p q).
  destruct (p ?= q) eqn:Hc; simpl; try discriminate; split; try apply Qeq_refl.
  apply Qeq_sym. now apply Qeq_alt.
Qed.

Lemma add_zero_r (a : float) : (a + Fin 0)%float ≈ a.
Proof. destruct a; simpl; auto. rewrite Qred_correct. ring. Qed.

(** A finite product has finite factors. *)
Lemma mul_fin_inv (a b : float) (r : Q) :
  (a * b)%float = Fin r -> exists p q, a = Fin p /\ b = Fin q /\ r == p * q.
Proof.
  destruct a as [p| | |], b as [q| | |]; simpl; try discriminate;
    try (destruct (_ ?= _); discriminate).
  intros [= <-]. exists p, q. repeat split. apply Qred_correct.
Qed.

End float_setoid.

(** ** Fitting the cosmetics *)

Section fitment.

Lemma component_multiply axis a b :
  component axis (np.multiply a b) = (component axis a * component axis b)%float.
Proof. now destruct axis. Qed.

Lemma component_divide axis a b :
  component axis (np.divide a b) = (component axis a / component axis b)%float.
Proof. now destruct axis. Qed.

Lemma component_subtract axis a b :
  component axis (np.subtract a b) = (component axis a - component axis b)%float.
Proof. now destruct axis. Qed.

Lemma component_current_size object axis :
  component axis (current_size object)
  = (component axis (extent object) * component axis (Object.scale object)
     * component axis doubling)%float.
Proof.
  unfold current_size, object_size. now rewrite !component_multiply.
Qed.

Lemma component_current_size_set_scale object scale axis :
  component axis (current_size (set_scale object scale))
  = (component axis (extent object) * component axis scale
     * component axis doubling)%float.
Proof. now rewrite component_current_size. Qed.

Lemma adjust_unfold self cosmetics_main fastening_clip :
  _adjust_scalings_and_sizes self cosmetics_main fastening_clip
  = Return
      (set_scale cosmetics_main
         (np.divide (np.multiply (Object.scale cosmetics_main) (target_size self))
                    (current_size cosmetics_main)),
       set_matrix_world fastening_clip
         (set_translation (Object.matrix_world fastening_clip)
            (Vector_add (translation (Object.matrix_world fastening_clip))
               (mkVector (Fin 0) (Fin 0)
                  (LegProsthesisGenerate.clip_position_z self
                   + z (np.amin (np.rows (Object.bound_box cosmetics_main)))
                     * z (np.divide (np.multiply (Object.scale cosmetics_main)
                                                 (target_size self))
                                    (current_size cosmetics_main))
                   - get_z_min fastening_clip)%float)))).
Proof. reflexivity. Qed.

(** The corners of a box give back its two opposite corners. *)
Lemma amax_box lo hi axis :
  (forall axis, leb (component axis lo) (component axis hi) = true) ->
  component axis (np.amax (np.rows (scene.box lo hi))) ≈ component axis hi.
Proof.
  intros Hle.
  destruct axis; [specialize (Hle AxisX) | specialize (Hle AxisY) | specialize (Hle AxisZ)];
    simpl in *; destruct (maximum_le _ _ Hle) as [Hl Hr];
    repeat (rewrite maximum_idem || rewrite Hl || rewrite Hr); reflexivity.
Qed.

Lemma amin_box lo hi axis :
  (forall axis, leb (component axis lo) (component axis hi) = true) ->
  component axis (np.amin (np.rows (scene.box lo hi))) ≈ component axis lo.
Proof.
  intros Hle.
  destruct axis; [specialize (Hle AxisX) | specialize (Hle AxisY) | specialize (Hle AxisZ)];
    simpl in *; destruct (minimum_le _ _ Hle) as [Hl Hr];
    repeat (rewrite minimum_idem || rewrite Hl || rewrite Hr); reflexivity.
Qed.

Lemma extent_box object lo hi axis :
  Object.bound_box object = scene.box lo hi ->
  (forall axis, leb (component axis lo) (component axis hi) = true) ->
  component axis (extent object) ≈ (component axis hi - component axis lo)%float.
Proof.
  intros Hbox Hle. unfold extent. rewrite Hbox, component_subtract.
  now rewrite amax_box, amin_box.
Qed.

(** C4.  The new scale is, per axis, the current scale times the target
    dimension over the current physical size; the current physical size is
    the extent of the bounding box times the current scale, doubled along
    x; the target's first two dimensions are the diameter,
    [max_circumference / np.pi].  The extent of a box is its largest corner
    minus its smallest.  For a box of extent (0.1, 0.1, 0.2), doubled to
    0.2 along x, the scale (1, 1, 1), the circumference 0.35 pi and the
    height 0.2, the new scale along x is 1.75. *)
Theorem new_scale_formula :
  (forall self cosmetics_main fastening_clip,
     exists cosmetics_main' fastening_clip',
       _adjust_scalings_and_sizes self cosmetics_main fastening_clip
       = Return (cosmetics_main', fastening_clip')
       /\ forall axis,
            component axis (Object.scale cosmetics_main')
            = (component axis (Object.scale cosmetics_main)
               * component axis (target_size self)
               / (component axis (extent cosmetics_main)
                  * component axis (Object.scale cosmetics_main)
                  * component axis doubling))%float)
  /\ (forall object lo hi,
        Object.bound_box object = scene.box lo hi ->
        (forall axis, leb (component axis lo) (component axis hi) = true) ->
        forall axis,
          component axis (extent object) ≈ (component axis hi - component axis lo)%float)
  /\ (forall self,
        target_size self
        = mkVector (LegProsthesisGenerate.max_circumference self / np.pi)
                   (LegProsthesisGenerate.max_circumference self / np.pi)
                   (LegProsthesisGenerate.height self))
  /\ (extent half_calf = scene.vec 0.1 0.1 0.2
      /\ current_size half_calf = scene.vec 0.2 0.1 0.2
      /\ exists cosmetics_main' fastening_clip',
           _adjust_scalings_and_sizes (measures 0.2) half_calf clip_part
           = Return (cosmetics_main', fastening_clip')
           /\ Object.scale cosmetics_main' = scene.vec 1.75 3.5 1).
Proof.
  split; [|split; [|split; [reflexivity|]]].
  - intros self cosmetics_main fastening_clip.
    eexists _, _. split; [apply adjust_unfold|].
    intros axis. unfold set_scale. simpl.
    rewrite component_divide, !component_multiply.
    unfold current_size, object_size. now rewrite !component_multiply.
  - intros object lo hi Hbox Hle axis. now apply extent_box.
  - split; [vm_compute; reflexivity|]. split; [vm_compute; reflexivity|].
    eexists _, _. split; [apply adjust_unfold|]. vm_compute. reflexivity.
Qed.

Lemma new_scale_formula_witness :
  Object.bound_box half_calf
  = scene.box (scene.vec 0 (-0.05) (-0.1)) (scene.vec 0.1 0.05 0.1)
  /\ (forall axis, leb (component axis (scene.vec 0 (-0.05) (-0.1)))
                       (component axis (scene.vec 0.1 0.05 0.1)) = true)
  /\ forall axis,
       component axis (extent half_calf)
       ≈ (component axis (scene.vec 0.1 0.05 0.1)
          - component axis (scene.vec 0 (-0.05) (-0.1)))%float.
Proof.
  assert (Hle : forall axis, leb (component axis (scene.vec 0 (-0.05) (-0.1)))
                                 (component axis (scene.vec 0.1 0.05 0.1)) = true)
    by (intros []; reflexivity).
  split; [reflexivity|]. split; [exact Hle|].
  apply (proj1 (proj2 new_scale_formula) half_calf _ _ eq_refl Hle).
Defined.

Lemma entry_set_translation_ne (m : Matrix) t i j :
  j <> 3%nat -> entry (set_translation m t) i j = entry m i j.
Proof.
  intros Hj. unfold entry, set_translation. rewrite list_lookup_imap.
  destruct (m !! i) as [row|]; simpl; [|done].
  destruct i as [|[|[|i]]]; simpl; rewrite ?list_lookup_insert_ne by done; done.
Qed.

Lemma entry_set_translation_last (m : Matrix) t j :
  entry (set_translation m t) 3 j = entry m 3 j.
Proof.
  unfold entry, set_translation. rewrite list_lookup_imap.
  now destruct (m !! 3%nat).
Qed.

Lemma translation_set_translation (m : Matrix) t :
  is_4x4 m -> translation (set_translation m t) = t.
Proof.
  intros [Hlen Hrows]. destruct t as [tx ty tz].
  destruct m as [|r0 [|r1 [|r2 [|r3 [|]]]]]; try discriminate.
  inversion Hrows as [|? ? H0 Hrows1]; subst.
  inversion Hrows1 as [|? ? H1 Hrows2]; subst.
  inversion Hrows2 as [|? ? H2 Hrows3]; subst.
  unfold translation, entry, set_translation. simpl.
  rewrite !list_lookup_insert_eq by lia. reflexivity.
Qed.

(** C7.  The clip is moved along z only, by
    [clip_position_z + zmin(main) * scale_z(main) - zmin(clip) * scale_z(clip)],
    where [zmin] is the smallest z of a bounding box and the scale of the
    cosmetics is the one just fitted; every entry of the clip's matrix
    outside the translation column, so its rotation and scale part, is
    unchanged, as are its scale and both bounding boxes. *)
Theorem clip_translation_offset self cosmetics_main fastening_clip :
  exists cosmetics_main' fastening_clip',
    _adjust_scalings_and_sizes self cosmetics_main fastening_clip
    = Return (cosmetics_main', fastening_clip')
    /\ let offset :=
         (LegProsthesisGenerate.clip_position_z self
          + z (np.amin (np.rows (Object.bound_box cosmetics_main)))
            * z (Object.scale cosmetics_main')
          - z (np.amin (np.rows (Object.bound_box fastening_clip)))
            * z (Object.scale fastening_clip))%float in
       (forall i j, j <> 3%nat ->
          entry (Object.matrix_world fastening_clip') i j
          = entry (Object.matrix_world fastening_clip) i j)
       /\ (forall j, entry (Object.matrix_world fastening_clip') 3 j
                     = entry (Object.matrix_world fastening_clip) 3 j)
       /\ (is_4x4 (Object.matrix_world fastening_clip) ->
           let t := translation (Object.matrix_world fastening_clip) in
           let t' := translation (Object.matrix_world fastening_clip') in
           x t' ≈ x t /\ y t' ≈ y t /\ z t' = (z t + offset)%float)
       /\ Object.scale fastening_clip' = Object.scale fastening_clip
       /\ Object.bound_box fastening_clip' = Object.bound_box fastening_clip
       /\ Object.bound_box cosmetics_main' = Object.bound_box cosmetics_main
       /\ Object.matrix_world cosmetics_main' = Object.matrix_world cosmetics_main.
Proof.
  eexists _, _. split; [apply adjust_unfold|].
  unfold set_scale, set_matrix_world.
  cbn [Object.matrix_world Object.scale Object.bound_box].
  split; [intros i j Hj; now apply entry_set_translation_ne|].
  split; [intros j; apply entry_set_translation_last|].
  split; [|repeat split].
  intros H4. rewrite translation_set_translation by done.
  cbn [Vector_add x y z].
  split; [apply add_zero_r | split; [apply add_zero_r | reflexivity]].
Qed.

Lemma clip_translation_offset_witness :
  is_4x4 (Object.matrix_world clip_part)
  /\ exists cosmetics_main' fastening_clip',
       _adjust_scalings_and_sizes (measures 0.3) half_calf clip_part
       = Return (cosmetics_main', fastening_clip')
       /\ z (translation (Object.matrix_world fastening_clip'))
          = (z (translation (Object.matrix_world clip_part))
             + (LegProsthesisGenerate.clip_position_z (measures 0.3)
                + z (np.amin (np.rows (Object.bound_box half_calf)))
                  * z (Object.scale cosmetics_main')
                - z (np.amin (np.rows (Object.bound_box clip_part)))
                  * z (Object.scale clip_part)))%float.
Proof.
  assert (H4 : is_4x4 (Object.matrix_world clip_part))
    by (split; [reflexivity | repeat constructor]).
  split; [exact H4|].
  destruct (clip_translation_offset (measures 0.3) half_calf clip_part)
    as (cosmetics_main' & fastening_clip' & Hrun & _ & _ & Htr & _).
  exists cosmetics_main', fastening_clip'. split; [exact Hrun|].
  exact (proj2 (proj2 (Htr H4))).
Defined.

(** The clip's offset reads the fitted scale: for a height of 0.3 the
    cosmetics are scaled by 1.5 along z, their lowest point comes to
    -0.15, and the clip, whose lowest point is at -0.02, moves by
    0.1 - 0.15 + 0.02 = -0.03. *)
Example clip_offset_reads_fitted_scale :
  exists cosmetics_main' fastening_clip',
    _adjust_scalings_and_sizes (measures 0.3) half_calf clip_part
    = Return (cosmetics_main', fastening_clip')
    /\ Object.scale cosmetics_main' = scene.vec 1.75 3.5 1.5
    /\ translation (Object.matrix_world fastening_clip') = scene.vec 0 0 (-0.03).
Proof.
  eexists _, _. split; [apply adjust_unfold|]. split; vm_compute; reflexivity.
Qed.

Lemma positive_inv (a : float) : is_positive a -> exists p, a = Fin p /\ 0 < p.
Proof. destruct a as [p| | |]; simpl; try tauto. eauto. Qed.

Lemma negative_inv (a : float) : is_negative a -> exists p, a = Fin p /\ p < 0.
Proof. destruct a as [p| | |]; simpl; try tauto. eauto. Qed.




(** C6, as the code has it.  The fit checks nothing and never fails: it
    returns for every input.  Along an axis where the current physical size
    is zero, the new scale is not finite (an infinity or not-a-number);
    where the size is not finite, the new scale is 0 or not-a-number. *)
Theorem adjust_never_fails self cosmetics_main fastening_clip :
  exists cosmetics_main' fastening_clip',
    _adjust_scalings_and_sizes self cosmetics_main fastening_clip
    = Return (cosmetics_main', fastening_clip')
    /\ forall axis,
         (is_zero (component axis (current_size cosmetics_main)) = true ->
          is_finite (component axis (Object.scale cosmetics_main')) = false)
         /\ (is_finite (component axis (current_size cosmetics_main)) = false ->
             component axis (Object.scale cosmetics_main') = Fin 0
             \/ component axis (Object.scale cosmetics_main') = NaN).
Proof.
  eexists _, _. split; [apply adjust_unfold|].
  intros axis. unfold set_scale. cbn [Object.scale].
  rewrite component_divide.
  destruct (component axis (np.multiply _ _)) as [p| | |],
           (component axis (current_size _)) as [q| | |];
    cbn [is_zero is_finite div]; split; intros H; try discriminate; auto;
    try (rewrite H; now destruct (p ?= 0));
    now destruct (q ?= 0).
Qed.

Lemma adjust_never_fails_witness :
  is_zero (component AxisX (current_size sheet)) = true
  /\ exists cosmetics_main' fastening_clip',
       _adjust_scalings_and_sizes (measures 0.2) sheet clip_part
       = Return (cosmetics_main', fastening_clip')
       /\ is_finite (component AxisX (Object.scale cosmetics_main')) = false.
Proof.
  split; [reflexivity|].
  destruct (adjust_never_fails (measures 0.2) sheet clip_part)
    as (cosmetics_main' & fastening_clip' & Hrun & Haxis).
  exists cosmetics_main', fastening_clip'. split; [exact Hrun|].
  apply (proj1 (Haxis AxisX)). reflexivity.
Defined.

(** C6, refuted as stated.  For a sheet, whose physical size along x is
    zero, the fit does not fail with [DegenerateGeometry]: it returns, and
    the new scale along x is infinite. *)
Lemma degenerate_size_is_not_signalled :
  component AxisX (current_size sheet) = Fin 0
  /\ (exists cosmetics_main' fastening_clip',
        _adjust_scalings_and_sizes (measures 0.2) sheet clip_part
        = Return (cosmetics_main', fastening_clip')
        /\ Object.scale cosmetics_main' = mkVector PInf (dec 3.5) (Fin 1))
  /\ _adjust_scalings_and_sizes (measures 0.2) sheet clip_part <> Raise DegenerateGeometry.
Proof.
  split; [vm_compute; reflexivity|]. split; [|discriminate].
  eexists _, _. split; [apply adjust_unfold|]. vm_compute. reflexivity.
Qed.




End fitment.

(** ** The mouse ray cast *)

Section ray_cast.

Lemma inverted_singular (m : Matrix) :
  eqb (determinant m) (Fin 0) = true -> inverted m = Raise ValueError.
Proof. intros H. unfold inverted, neb. now rewrite H. Qed.

Lemma inverted_raises_ValueError (m : Matrix) e :
  inverted m = Raise e -> e = ValueError.
Proof. unfold inverted. destruct (neb _ _); congruence. Qed.

Lemma step_raises_ValueError origin target state object e :
  mouse_ray_cast_step origin target state object = Raise e -> e = ValueError.
Proof.
  unfold mouse_ray_cast_step. destruct state as [best_length_squared best_obj_data].
  fold (resolved object). destruct (resolved object) as [obj matrix_world].
  destruct (decide _); [|discriminate].
  destruct (inverted matrix_world) as [inverse|e'] eqn:Hinv; simpl.
  - destruct (Object.ray_cast _ _ _) as [[[hit point] normal] index].
    destruct hit; [destruct (_ || _)|]; discriminate.
  - intros [= <-]. now apply inverted_raises_ValueError in Hinv.
Qed.

Lemma step_singular origin target state object :
  Object.type (fst (resolved object)) = MESH ->
  eqb (determinant (snd (resolved object))) (Fin 0) = true ->
  mouse_ray_cast_step origin target state object = Raise ValueError.
Proof.
  unfold mouse_ray_cast_step. destruct state as [best_length_squared best_obj_data].
  fold (resolved object). destruct (resolved object) as [obj matrix_world]. simpl.
  intros Hmesh Hdet. rewrite decide_True by done.
  now rewrite (inverted_singular _ Hdet).
Qed.

Lemma step_not_mesh origin target state object :
  Object.type (fst (resolved object)) <> MESH ->
  mouse_ray_cast_step origin target state object = Return state.
Proof.
  unfold mouse_ray_cast_step. destruct state as [best_length_squared best_obj_data].
  fold (resolved object). destruct (resolved object) as [obj matrix_world]. simpl.
  intros Hmesh. now rewrite decide_False by done.
Qed.

Lemma for_each_raises {A S : Type} (body : S -> A -> outcome S) (l : list A) (a : A) :
  (forall s a' e, body s a' = Raise e -> e = ValueError) ->
  (forall s, body s a = Raise ValueError) ->
  a ∈ l ->
  forall s, for_each body l s = Raise ValueError.
Proof.
  intros Honly Hraise Hin. induction l as [|a0 l IH]; intros s.
  - inversion Hin.
  - simpl. destruct (body s a0) as [s'|e] eqn:Hbody; simpl.
    + apply IH. apply elem_of_cons in Hin as [->|Hin]; [|exact Hin].
      rewrite Hraise in Hbody. discriminate.
    + now rewrite (Honly _ _ _ Hbody).
Qed.

(** C8, as the code has it.  A mesh object whose matrix has determinant
    zero is not skipped: wherever it stands among the object instances,
    the inversion raises [ValueError] and the whole ray cast fails.  Only
    an object that is not a mesh is passed over, its matrix not being
    inverted at all. *)
Theorem singular_mesh_fails_ray_cast :
  (forall context mouse_coords object,
     object ∈ helpers.Context.object_instances context ->
     Object.type (fst (resolved object)) = MESH ->
     eqb (determinant (snd (resolved object))) (Fin 0) = true ->
     mouse_ray_cast context mouse_coords = Raise ValueError)
  /\ (forall origin target state object,
        Object.type (fst (resolved object)) <> MESH ->
        mouse_ray_cast_step origin target state object = Return state).
Proof.
  split.
  - intros context mouse_coords object Hin Hmesh Hdet. unfold mouse_ray_cast.
    rewrite (for_each_raises _ _ object); [reflexivity| | |exact Hin].
    + intros s a' e. apply step_raises_ValueError.
    + intros s. now apply step_singular.
  - intros origin target state object. apply step_not_mesh.
Qed.

Lemma singular_mesh_fails_ray_cast_witness :
  scene.instance_of scene.flattened
    ∈ helpers.Context.object_instances (scene.context_of [scene.near; scene.flattened])
  /\ Object.type (fst (resolved (scene.instance_of scene.flattened))) = MESH
  /\ eqb (determinant (snd (resolved (scene.instance_of scene.flattened)))) (Fin 0) = true
  /\ mouse_ray_cast (scene.context_of [scene.near; scene.flattened]) (0, 0)%Z
     = Raise ValueError.
Proof.
  assert (Hin : scene.instance_of scene.flattened
                  ∈ helpers.Context.object_instances
                      (scene.context_of [scene.near; scene.flattened])).
  { unfold scene.context_of. cbn [helpers.Context.object_instances map].
    apply elem_of_cons. right. apply elem_of_cons. now left. }
  assert (Hdet : eqb (determinant (snd (resolved (scene.instance_of scene.flattened))))
                     (Fin 0) = true) by (vm_compute; reflexivity).
  split; [exact Hin|]. split; [reflexivity|]. split; [exact Hdet|].
  exact (proj1 singular_mesh_fails_ray_cast _ (0, 0)%Z _ Hin eq_refl Hdet).
Defined.

(** C8, refuted as stated.  With a mesh object whose matrix has no inverse
    ahead of a square that the ray hits, the ray cast does not skip the
    first and return the hit on the second: it raises [ValueError].
    Without the first object the square is hit. *)
Lemma singular_candidate_is_not_skipped :
  eqb (determinant (Object.matrix_world scene.flattened)) (Fin 0) = true
  /\ mouse_ray_cast (scene.context_of [scene.flattened; scene.near]) (0, 0)%Z
     = Raise ValueError
  /\ named (mouse_ray_cast (scene.context_of [scene.near]) (0, 0)%Z)
     = Return (Some "near", Some (scene.vec 0.5 0.25 2), Some (scene.vec 0 0 (-1)),
               Some 1%Z).
Proof.
  split; [vm_compute; reflexivity|]. split; vm_compute; reflexivity.
Qed.

(** C1, evaluated where it fails.  The ray leaves [(0.5, 0.25, 0)] along
    z.  It meets the square of [near] at world height 2 and the square of
    [far_x10], an object scaled ten times, at world height 5.  The squared
    distances compared by the loop are those in object coordinates, 4 and
    0.25, so the farther object is returned, whichever comes first; in
    world coordinates the squared distances are 4 and 25. *)
Theorem mouse_ray_cast_returns_farther :
  let farther :=
    Return (Some "far_x10", Some (scene.vec 0.05 0.025 0.5), Some (scene.vec 0 0 (-1)),
            Some 1%Z) in
  named (mouse_ray_cast (scene.context_of [scene.near; scene.far_x10]) (0, 0)%Z) = farther
  /\ named (mouse_ray_cast (scene.context_of [scene.far_x10; scene.near]) (0, 0)%Z) = farther
  /\ named (mouse_ray_cast (scene.context_of [scene.near]) (0, 0)%Z)
     = Return (Some "near", Some (scene.vec 0.5 0.25 2), Some (scene.vec 0 0 (-1)),
               Some 1%Z)
  /\ world_length_squared scene.near view_origin (scene.vec 0.5 0.25 2) = Fin 4
  /\ world_length_squared scene.far_x10 view_origin (scene.vec 0.05 0.025 0.5) = Fin 25
  /\ length_squared (Vector_sub (scene.vec 0.5 0.25 2) view_origin) = Fin 4
  /\ length_squared (Vector_sub (scene.vec 0.05 0.025 0.5) (scene.vec 0.05 0.025 0))
     = dec 0.25.
Proof.
  repeat split; vm_compute; reflexivity.
Qed.

End ray_cast.

(** ** The point-in-polygon test *)

Section inside_polygon.

Lemma on_edge_on_segment point edge : on_edge point edge = true -> on_segment point edge.
Proof.
  destruct point as [px py], edge as [[x1 y1] [x2 y2]]. unfold on_edge, on_segment.
  rewrite !andb_true_iff, Qeq_bool_iff, !Qle_bool_iff. simpl.
  intros ((((Hcross & Hx1) & Hx2) & Hy1) & Hy2).
  destruct (Q.min_spec x1 x2) as [[? Hmx]|[? Hmx]]; rewrite Hmx in Hx1; clear Hmx;
    destruct (Q.max_spec x1 x2) as [[? HMx]|[? HMx]]; rewrite HMx in Hx2; clear HMx;
    destruct (Q.min_spec y1 y2) as [[? Hmy]|[? Hmy]]; rewrite Hmy in Hy1; clear Hmy;
    destruct (Q.max_spec y1 y2) as [[? HMy]|[? HMy]]; rewrite HMy in Hy2; clear HMy;
    try lra.
  all: destruct (Qeq_dec x1 x2) as [Hx|Hx].
  all: try (destruct (Qeq_dec y1 y2) as [Hy|Hy];
            [ exists 0; repeat split; try lra; nra | ]).
  all: try (exists ((py - y1) / (y2 - y1));
            assert (Ht : (py - y1) / (y2 - y1) * (y2 - y1) == py - y1)
              by (field; lra);
            set (t := (py - y1) / (y2 - y1)) in *;
            repeat split;
            [ destruct (Qlt_le_dec t 0); [exfalso; nra | assumption]
            | destruct (Qlt_le_dec 1 t); [exfalso; nra | assumption]
            | nra | nra ]).
  all: exists ((px - x1) / (x2 - x1));
    assert (Ht : (px - x1) / (x2 - x1) * (x2 - x1) == px - x1) by (field; lra);
    set (t := (px - x1) / (x2 - x1)) in *;
    assert (Hty : (py - y1) * (x2 - x1) == t * (y2 - y1) * (x2 - x1)) by nra;
    assert (Hy' : py - y1 == t * (y2 - y1))
      by (apply (Qmult_inj_r _ _ (x2 - x1)); [lra | exact Hty]);
    repeat split;
    [ destruct (Qlt_le_dec t 0); [exfalso; nra | assumption]
    | destruct (Qlt_le_dec 1 t); [exfalso; nra | assumption]
    | nra | nra ].
Qed.

Lemma on_segment_on_edge point edge : on_segment point edge -> on_edge point edge = true.
Proof.
  destruct point as [px py], edge as [[x1 y1] [x2 y2]]. unfold on_edge, on_segment.
  simpl. intros (t & Ht0 & Ht1 & Hx & Hy).
  rewrite !andb_true_iff, Qeq_bool_iff, !Qle_bool_iff.
  repeat split.
  - rewrite Hx, Hy. ring.
  - destruct (Q.min_spec x1 x2) as [[? ->]|[? ->]]; nra.
  - destruct (Q.max_spec x1 x2) as [[? ->]|[? ->]]; nra.
  - destruct (Q.min_spec y1 y2) as [[? ->]|[? ->]]; nra.
  - destruct (Q.max_spec y1 y2) as [[? ->]|[? ->]]; nra.
Qed.

Lemma existsb_on_edge point polygon :
  existsb (on_edge point) (edges polygon) = true <-> on_boundary point polygon.
Proof.
  rewrite existsb_exists. unfold on_boundary.
  split; intros (edge & Hin & H); exists edge; split; auto.
  - now apply on_edge_on_segment.
  - now apply on_segment_on_edge.
Qed.

Lemma inside_polygon_iff (polygon : list Point2) (point : Point2) :
  (3 <= length polygon)%nat ->
  exists inside,
    inside_polygon point polygon = Return inside
    /\ (inside = true
        <-> on_boundary point polygon \/ Nat.odd (crossing_number point polygon) = true).
Proof.
  intros Hlen. unfold inside_polygon.
  destruct (Nat.ltb_spec (length polygon) 3) as [Hlt|_]; [lia|].
  eexists. split; [reflexivity|].
  now rewrite <- existsb_on_edge, <- orb_true_iff.
Qed.

(** C2.  For a polygon of at least three points, [inside_polygon] answers
    true exactly when the point lies on an edge of the polygon, ends
    included, or the number of edges crossed by the ray from the point
    towards +infinity in x is odd; in particular a point on an edge is
    inside; [classify] gives that answer for every point, in order.  For
    the square (0,0)-(10,0)-(10,10)-(0,10): (5,5) is inside, (15,5) is
    outside, and (0,5), on the boundary, is inside. *)
Theorem inside_polygon_closed :
  (forall (polygon : list Point2) (point : Point2),
     (3 <= length polygon)%nat ->
     (inside_polygon point polygon = Return true
      <-> on_boundary point polygon \/ Nat.odd (crossing_number point polygon) = true)
     /\ (on_boundary point polygon -> inside_polygon point polygon = Return true)
     /\ exists inside, inside_polygon point polygon = Return inside)
  /\ (forall (polygon points : list Point2),
        (3 <= length polygon)%nat ->
        exists flags,
          classify polygon points = Return flags
          /\ Forall2 (fun point flag =>
                        flag = true
                        <-> on_boundary point polygon
                            \/ Nat.odd (crossing_number point polygon) = true)
                     points flags)
  /\ inside_polygon (5, 5) square = Return true
  /\ inside_polygon (15, 5) square = Return false
  /\ inside_polygon (0, 5) square = Return true
  /\ classify square [(5, 5); (15, 5); (0, 5)] = Return [true; false; true].
Proof.
  split; [|split; [|repeat split; vm_compute; reflexivity]].
  - intros polygon point Hlen.
    destruct (inside_polygon_iff polygon point Hlen) as (inside & Hrun & Hiff).
    rewrite Hrun. split; [|split; [|eauto]].
    + rewrite <- Hiff. split; [now intros [= ->] | now intros ->].
    + intros Hb. f_equal. apply Hiff. now left.
  - intros polygon points Hlen. unfold classify.
    induction points as [|point points (flags & Hrun & Hall)].
    + exists []. split; [reflexivity | constructor].
    + destruct (inside_polygon_iff polygon point Hlen) as (inside & Hrun1 & Hiff).
      exists (inside :: flags). split.
      * simpl. rewrite Hrun1. simpl. rewrite Hrun. reflexivity.
      * now constructor.
Qed.

Lemma inside_polygon_closed_witness :
  (3 <= length square)%nat
  /\ on_boundary (0, 5) square
  /\ inside_polygon (0, 5) square = Return true.
Proof.
  assert (Hlen : (3 <= length square)%nat) by (simpl; lia).
  assert (Hb : on_boundary (0, 5) square).
  { exists ((0, 10), (0, 0)). split; [simpl; tauto|].
    exists (1 # 2). simpl. repeat split; lra. }
  split; [exact Hlen|]. split; [exact Hb|].
  exact (proj1 (proj2 (proj1 inside_polygon_closed square (0, 5) Hlen)) Hb).
Defined.

End inside_polygon.

(** * Further properties *)

(** ** The mouse ray cast: which hit is returned *)

Section ray_cast_choice.

Lemma step_castable origin target state object :
  castable object ->
  mouse_ray_cast_step origin target state object
  = Return (match candidate_hit origin target object with
            | Some hit => pick state hit
            | None => state
            end).
Proof.
  unfold castable, mouse_ray_cast_step, candidate_hit, pick.
  destruct state as [best_length_squared best_obj_data].
  fold (resolved object). destruct (resolved object) as [obj matrix_world].
  cbn [fst snd]. intros Hcast.
  destruct (decide (Object.type obj = MESH)) as [Hmesh|Hmesh]; [|reflexivity].
  destruct (inverted matrix_world) as [inverse|e] eqn:Hinv.
  - unfold mbind, outcome_bind.
    destruct (Object.ray_cast obj _ _) as [[[hit point] normal] index].
    destruct hit; [|reflexivity]. cbn [fst snd].
    destruct (_ || _); reflexivity.
  - unfold inverted in Hinv. rewrite (Hcast Hmesh) in Hinv. discriminate.
Qed.

Lemma step_not_castable origin target state object :
  ~ castable object ->
  mouse_ray_cast_step origin target state object = Raise ValueError.
Proof.
  unfold castable. intros Hnot.
  destruct (decide (Object.type (fst (resolved object)) = MESH)) as [Hmesh|Hmesh];
    [|exfalso; apply Hnot; intros H; contradiction].
  apply step_singular; [exact Hmesh|].
  destruct (eqb _ _) eqn:Heq; [reflexivity|].
  exfalso. apply Hnot. intros _. unfold neb. now rewrite Heq.
Qed.

Lemma castable_dec object : {castable object} + {~ castable object}.
Proof.
  unfold castable.
  destruct (decide (Object.type (fst (resolved object)) = MESH)) as [Hmesh|Hmesh].
  - destruct (neb (determinant (snd (resolved object))) (Fin 0)) eqn:Hdet.
    + now left.
    + right. intros H. specialize (H Hmesh). discriminate.
  - left. intros H. contradiction.
Qed.

Lemma for_each_castable origin target (l : list DepsgraphObjectInstance.t) :
  (forall object, object ∈ l -> castable object) ->
  forall state,
    for_each (mouse_ray_cast_step origin target) l state
    = Return (foldl pick state (omap (candidate_hit origin target) l)).
Proof.
  induction l as [|object l IH]; intros Hall state; [reflexivity|].
  cbn [for_each]. rewrite step_castable by (apply Hall; now left).
  cbn. rewrite IH by (intros o Ho; apply Hall; now right).
  destruct (candidate_hit origin target object); reflexivity.
Qed.

Lemma castable_or_not (l : list DepsgraphObjectInstance.t) :
  (forall object, object ∈ l -> castable object)
  \/ (exists object, object ∈ l /\ ~ castable object).
Proof.
  induction l as [|object l [IH|(o & Hin & Hnot)]].
  - left. intros object Hin. inversion Hin.
  - destruct (castable_dec object) as [H|H].
    + left. intros o Hin. apply elem_of_cons in Hin as [->|Hin]; auto.
    + right. exists object. split; [now left | exact H].
  - right. exists o. split; [now right | exact Hnot].
Qed.

Lemma for_each_raises_only {A S : Type} (body : S -> A -> outcome S) (l : list A)
    (e0 : exn) :
  (forall s a e, body s a = Raise e -> e = e0) ->
  forall s e, for_each body l s = Raise e -> e = e0.
Proof.
  intros Honly. induction l as [|a l IH]; intros s e; [discriminate|].
  cbn [for_each]. destruct (body s a) as [s'|e'] eqn:Hbody.
  - apply IH.
  - intros Hraise. injection Hraise as <-. eapply Honly, Hbody.
Qed.

(** X1.  The ray cast raises, and then [ValueError], exactly when some
    object instance is a mesh whose matrix has determinant zero; otherwise
    it returns the result of the loop over the hits. *)
Theorem mouse_ray_cast_raises_iff context mouse_coords :
  (mouse_ray_cast context mouse_coords = Raise ValueError
   <-> exists object,
         object ∈ helpers.Context.object_instances context /\ ~ castable object)
  /\ ((forall object,
         object ∈ helpers.Context.object_instances context -> castable object)
      -> exists result, mouse_ray_cast context mouse_coords = Return result)
  /\ (forall e, mouse_ray_cast context mouse_coords = Raise e -> e = ValueError).
Proof.
  assert (Hreturns :
            (forall object,
                object ∈ helpers.Context.object_instances context -> castable object)
            -> exists result, mouse_ray_cast context mouse_coords = Return result).
  { intros Hall. unfold mouse_ray_cast. rewrite for_each_castable by exact Hall.
    cbn. eauto. }
  split; [split|split; [exact Hreturns|]].
  - intros Hraise.
    destruct (castable_or_not (helpers.Context.object_instances context))
      as [Hall|Hex]; [|exact Hex].
    destruct (Hreturns Hall) as (result & Hrun). congruence.
  - intros (object & Hin & Hnot). unfold mouse_ray_cast.
    rewrite (for_each_raises _ _ object); [reflexivity| | |exact Hin].
    + intros s a' e. apply step_raises_ValueError.
    + intros s. now apply step_not_castable.
  - intros e. unfold mouse_ray_cast.
    destruct (for_each _ _ _) as [best|e'] eqn:Hloop; [discriminate|].
    intros Hraise. injection Hraise as <-.
    eapply for_each_raises_only, Hloop. apply step_raises_ValueError.
Qed.

Lemma ltb_lt (p q : Q) : ltb (Fin p) (Fin q) = true <-> p < q.
Proof.
  unfold ltb. cbn. rewrite Qlt_alt. destruct (p ?= q); split; congruence.
Qed.

Lemma ltb_irrefl (a : float) : ltb a a = false.
Proof.
  destruct a as [p| | |]; try reflexivity.
  destruct (ltb (Fin p) (Fin p)) eqn:H; [|reflexivity].
  apply ltb_lt in H. lra.
Qed.

Lemma ltb_trans (a b c : float) :
  ltb a b = true -> ltb b c = true -> ltb a c = true.
Proof.
  destruct a as [p| | |], b as [q| | |], c as [r| | |];
    try discriminate; try reflexivity.
  rewrite !ltb_lt. lra.
Qed.

Lemma ltb_asym (a b : float) : ltb a b = true -> ltb b a = false.
Proof.
  intros H. destruct (ltb b a) eqn:H'; [|reflexivity].
  rewrite <- (ltb_irrefl a). symmetry. eapply ltb_trans; eauto.
Qed.

(** Below [b], and [c] not below [b]: below [c], when [c] is a number. *)
Lemma ltb_not_ltb (a b c : float) :
  ltb a b = true -> ltb c b = false -> c <> NaN -> ltb a c = true.
Proof.
  destruct a as [p| | |], b as [q| | |], c as [r| | |];
    try discriminate; try reflexivity; try congruence.
  intros Hab Hcb _. apply ltb_lt in Hab. apply ltb_lt.
  destruct (Qlt_le_dec r q) as [Hlt|Hle]; [|lra].
  apply ltb_lt in Hlt. congruence.
Qed.

Lemma candidate_hit_object origin target object hit :
  candidate_hit origin target object = Some hit ->
  is_Some (RayCastResult.object (snd hit)).
Proof.
  unfold candidate_hit. destruct (resolved object) as [obj matrix_world].
  destruct (decide _); [|discriminate].
  destruct (inverted matrix_world); [|discriminate].
  destruct (Object.ray_cast obj _ _) as [[[h point] normal] index].
  destruct h; [|discriminate]. intros [= <-]. cbn. eauto.
Qed.

Lemma pick_some (state hit : float * RayCastResult.t) :
  is_Some (RayCastResult.object (snd state)) ->
  pick state hit = if ltb (fst hit) (fst state) then hit else state.
Proof.
  intros [obj Hobj]. unfold pick. rewrite Hobj.
  rewrite bool_decide_false by discriminate. reflexivity.
Qed.

Lemma pick_none (state hit : float * RayCastResult.t) :
  RayCastResult.object (snd state) = None -> pick state hit = hit.
Proof.
  intros Hobj. unfold pick. rewrite Hobj.
  rewrite bool_decide_true by reflexivity. reflexivity.
Qed.

(** The loop over hits, once something is stored: the final state is the
    stored hit or a strictly nearer one of the list, and no hit of the
    list is strictly nearer than it. *)
Lemma foldl_pick_min (hits : list (float * RayCastResult.t)) :
  (forall hit, hit ∈ hits -> is_Some (RayCastResult.object (snd hit))) ->
  forall state,
    is_Some (RayCastResult.object (snd state)) ->
    (foldl pick state hits = state
     \/ (foldl pick state hits ∈ hits
         /\ ltb (fst (foldl pick state hits)) (fst state) = true))
    /\ (forall hit, hit ∈ hits -> ltb (fst hit) (fst (foldl pick state hits)) = false).
Proof.
  induction hits as [|h hits IH]; intros Hobj state Hstate.
  - split; [now left|]. intros hit Hin. inversion Hin.
  - cbn [foldl]. rewrite pick_some by exact Hstate.
    assert (Hobj' : forall hit, hit ∈ hits -> is_Some (RayCastResult.object (snd hit)))
      by (intros hit Hin; apply Hobj; now right).
    destruct (ltb (fst h) (fst state)) eqn:Hlt.
    + destruct (IH Hobj' h (Hobj h ltac:(now left))) as [Hsel Hmin]. split.
      * right. destruct Hsel as [->|[Hin Hlt']].
        -- split; [now left | exact Hlt].
        -- split; [now right | eapply ltb_trans; eauto].
      * intros hit Hin. apply elem_of_cons in Hin as [->|Hin]; [|now apply Hmin].
        destruct Hsel as [->|[_ Hlt']]; [apply ltb_irrefl | now apply ltb_asym].
    + destruct (IH Hobj' state Hstate) as [Hsel Hmin]. split.
      * destruct Hsel as [->|[Hin Hlt']]; [now left|]. right. split; [now right | exact Hlt'].
      * intros hit Hin. apply elem_of_cons in Hin as [->|Hin]; [|now apply Hmin].
        destruct Hsel as [->|[_ Hlt']]; [exact Hlt|].
        destruct (ltb (fst h) (fst (foldl pick state hits))) eqn:Hh; [|reflexivity].
        assert (ltb (fst h) (fst state) = true) by (eapply ltb_trans; eauto).
        congruence.
Qed.

(** The same loop when no squared length is not-a-number: the final state
    is the stored hit, or the hit at some position, strictly nearer than
    the stored one and than every hit before that position. *)
Lemma foldl_pick_first (hits : list (float * RayCastResult.t)) :
  (forall hit, hit ∈ hits -> is_Some (RayCastResult.object (snd hit))) ->
  (forall hit, hit ∈ hits -> fst hit <> NaN) ->
  forall state,
    is_Some (RayCastResult.object (snd state)) ->
    foldl pick state hits = state
    \/ exists i,
         hits !! i = Some (foldl pick state hits)
         /\ ltb (fst (foldl pick state hits)) (fst state) = true
         /\ forall j hit, (j < i)%nat -> hits !! j = Some hit ->
              ltb (fst (foldl pick state hits)) (fst hit) = true.
Proof.
  induction hits as [|h hits IH]; intros Hobj Hnum state Hstate; [now left|].
  cbn [foldl]. rewrite pick_some by exact Hstate.
  assert (Hobj' : forall hit, hit ∈ hits -> is_Some (RayCastResult.object (snd hit)))
    by (intros hit Hin; apply Hobj; now right).
  assert (Hnum' : forall hit, hit ∈ hits -> fst hit <> NaN)
    by (intros hit Hin; apply Hnum; now right).
  destruct (ltb (fst h) (fst state)) eqn:Hlt.
  - right. destruct (IH Hobj' Hnum' h (Hobj h ltac:(now left)))
      as [->|(i & Hi & Hlt' & Hbefore)].
    + exists 0%nat. split; [reflexivity|]. split; [exact Hlt|].
      intros j hit Hj. lia.
    + exists (S i). split; [exact Hi|]. split; [eapply ltb_trans; eauto|].
      intros [|j] hit Hj Hhit; cbn in Hhit.
      * injection Hhit as <-. exact Hlt'.
      * apply (Hbefore j hit); [lia | exact Hhit].
  - destruct (IH Hobj' Hnum' state Hstate) as [->|(i & Hi & Hlt' & Hbefore)];
      [now left|].
    right. exists (S i). split; [exact Hi|]. split; [exact Hlt'|].
    intros [|j] hit Hj Hhit; cbn in Hhit.
    + injection Hhit as <-.
      apply (ltb_not_ltb _ (fst state)); [exact Hlt' | exact Hlt|].
      apply Hnum. now left.
    + apply (Hbefore j hit); [lia | exact Hhit].
Qed.

Lemma hits_of_object context mouse_coords hit :
  hit ∈ hits_of context mouse_coords -> is_Some (RayCastResult.object (snd hit)).
Proof.
  unfold hits_of. intros Hin. apply list_elem_of_omap in Hin as (object & _ & Hhit).
  eapply candidate_hit_object, Hhit.
Qed.

Lemma mouse_ray_cast_castable context mouse_coords :
  (forall object,
     object ∈ helpers.Context.object_instances context -> castable object) ->
  mouse_ray_cast context mouse_coords
  = Return (snd (foldl pick (Fin (-1), no_result) (hits_of context mouse_coords))).
Proof.
  intros Hall. unfold mouse_ray_cast. rewrite for_each_castable by exact Hall.
  reflexivity.
Qed.

(** X2.  When no mesh matrix is singular, the ray cast returns; the
    returned object is [None], and with it every other field, exactly when
    the ray hits no mesh instance (so also for an empty scene). *)
Theorem mouse_ray_cast_none_iff_no_hit context mouse_coords :
  (forall object,
     object ∈ helpers.Context.object_instances context -> castable object) ->
  exists result,
    mouse_ray_cast context mouse_coords = Return result
    /\ (RayCastResult.object result = None <-> hits_of context mouse_coords = [])
    /\ (hits_of context mouse_coords = [] -> result = no_result).
Proof.
  intros Hall. rewrite mouse_ray_cast_castable by exact Hall.
  eexists. split; [reflexivity|].
  destruct (hits_of context mouse_coords) as [|h hits] eqn:Hhits.
  - cbn. tauto.
  - split; [|discriminate]. split; [|discriminate].
    cbn [foldl]. rewrite pick_none by reflexivity.
    assert (Hobj : forall hit, hit ∈ h :: hits -> is_Some (RayCastResult.object (snd hit)))
      by (intros hit Hin; apply (hits_of_object context mouse_coords); now rewrite Hhits).
    destruct (foldl_pick_min hits (fun hit Hin => Hobj hit ltac:(now right)) h
                (Hobj h ltac:(now left))) as [[->|[Hin _]] _].
    + destruct (Hobj h ltac:(now left)) as [obj Hsome]. congruence.
    + destruct (Hobj _ ltac:(right; exact Hin)) as [obj Hsome]. congruence.
Qed.

(** X3.  When no mesh matrix is singular and the ray hits something, the
    result returned is that of one of the hits, and no hit has a squared
    length, measured in its own object's coordinates, strictly smaller
    than that one's. *)
Theorem mouse_ray_cast_least_object_length context mouse_coords :
  (forall object,
     object ∈ helpers.Context.object_instances context -> castable object) ->
  hits_of context mouse_coords <> [] ->
  exists result length_squared,
    mouse_ray_cast context mouse_coords = Return result
    /\ (length_squared, result) ∈ hits_of context mouse_coords
    /\ forall hit, hit ∈ hits_of context mouse_coords ->
         ltb (fst hit) length_squared = false.
Proof.
  intros Hall Hhit. rewrite mouse_ray_cast_castable by exact Hall.
  assert (Hobj := hits_of_object context mouse_coords).
  destruct (hits_of context mouse_coords) as [|h hits]; [congruence|].
  cbn [foldl]. rewrite pick_none by reflexivity.
  destruct (foldl_pick_min hits (fun hit Hin => Hobj hit ltac:(now right)) h
              (Hobj h ltac:(now left))) as [Hsel Hmin].
  exists (snd (foldl pick h hits)), (fst (foldl pick h hits)).
  split; [reflexivity|]. rewrite <- surjective_pairing. split.
  - destruct Hsel as [->|[Hin _]]; [now left | now right].
  - intros hit Hin. apply elem_of_cons in Hin as [->|Hin]; [|now apply Hmin].
    destruct Hsel as [->|[_ Hlt]]; [apply ltb_irrefl | now apply ltb_asym].
Qed.

(** X4.  Ties go to the first: when moreover no compared squared length is
    not-a-number, the returned hit is strictly nearer than every hit that
    comes before it in the order of the object instances. *)
Theorem mouse_ray_cast_first_of_equals context mouse_coords :
  (forall object,
     object ∈ helpers.Context.object_instances context -> castable object) ->
  (forall hit, hit ∈ hits_of context mouse_coords -> fst hit <> NaN) ->
  hits_of context mouse_coords <> [] ->
  exists result length_squared i,
    mouse_ray_cast context mouse_coords = Return result
    /\ hits_of context mouse_coords !! i = Some (length_squared, result)
    /\ forall j hit, (j < i)%nat -> hits_of context mouse_coords !! j = Some hit ->
         ltb length_squared (fst hit) = true.
Proof.
  intros Hall Hnum Hhit. rewrite mouse_ray_cast_castable by exact Hall.
  assert (Hobj := hits_of_object context mouse_coords).
  destruct (hits_of context mouse_coords) as [|h hits]; [congruence|].
  cbn [foldl]. rewrite pick_none by reflexivity.
  exists (snd (foldl pick h hits)), (fst (foldl pick h hits)).
  destruct (foldl_pick_first hits (fun hit Hin => Hobj hit ltac:(now right))
              (fun hit Hin => Hnum hit ltac:(now right)) h (Hobj h ltac:(now left)))
    as [Heq|(i & Hi & Hlt & Hbefore)].
  - exists 0%nat. split; [reflexivity|]. rewrite <- surjective_pairing, Heq.
    split; [reflexivity|]. intros j hit Hj. lia.
  - exists (S i). split; [reflexivity|]. rewrite <- surjective_pairing.
    split; [exact Hi|]. intros [|j] hit Hj Hhit'; cbn in Hhit'.
    + injection Hhit' as <-. exact Hlt.
    + apply (Hbefore j hit); [lia | exact Hhit'].
Qed.

Lemma two_squares_castable object :
  object ∈ helpers.Context.object_instances two_squares -> castable object.
Proof.
  unfold two_squares, scene.context_of. cbn [helpers.Context.object_instances map].
  intros Hin. apply elem_of_cons in Hin as [->|Hin].
  - intros _. vm_compute. reflexivity.
  - apply elem_of_cons in Hin as [->|Hin]; [|inversion Hin].
    intros _. vm_compute. reflexivity.
Qed.

Lemma two_squares_hit : hits_of two_squares (0, 0)%Z <> [].
Proof.
  intros H. apply (f_equal length) in H. vm_compute in H. discriminate.
Qed.

Lemma two_squares_numbers hit :
  hit ∈ hits_of two_squares (0, 0)%Z -> fst hit <> NaN.
Proof.
  assert (Hall : forallb (fun hit => is_number (fst hit))
                         (hits_of two_squares (0, 0)%Z) = true)
    by (vm_compute; reflexivity).
  intros Hin Hnan. rewrite forallb_forall in Hall.
  apply list_elem_of_In, Hall in Hin. rewrite Hnan in Hin. discriminate.
Qed.

Lemma mouse_ray_cast_raises_iff_witness :
  (forall object,
     object ∈ helpers.Context.object_instances two_squares -> castable object)
  /\ exists result, mouse_ray_cast two_squares (0, 0)%Z = Return result.
Proof.
  split; [exact two_squares_castable|].
  exact (proj1 (proj2 (mouse_ray_cast_raises_iff two_squares (0, 0)%Z))
               two_squares_castable).
Defined.

Lemma mouse_ray_cast_none_iff_no_hit_witness :
  (forall object,
     object ∈ helpers.Context.object_instances two_squares -> castable object)
  /\ exists result,
       mouse_ray_cast two_squares (0, 0)%Z = Return result
       /\ (RayCastResult.object result = None <-> hits_of two_squares (0, 0)%Z = [])
       /\ (hits_of two_squares (0, 0)%Z = [] -> result = no_result).
Proof.
  split; [exact two_squares_castable|].
  exact (mouse_ray_cast_none_iff_no_hit two_squares (0, 0)%Z two_squares_castable).
Defined.

Lemma mouse_ray_cast_least_object_length_witness :
  (forall object,
     object ∈ helpers.Context.object_instances two_squares -> castable object)
  /\ hits_of two_squares (0, 0)%Z <> []
  /\ exists result length_squared,
       mouse_ray_cast two_squares (0, 0)%Z = Return result
       /\ (length_squared, result) ∈ hits_of two_squares (0, 0)%Z
       /\ forall hit, hit ∈ hits_of two_squares (0, 0)%Z ->
            ltb (fst hit) length_squared = false.
Proof.
  split; [exact two_squares_castable|]. split; [exact two_squares_hit|].
  exact (mouse_ray_cast_least_object_length two_squares (0, 0)%Z
           two_squares_castable two_squares_hit).
Defined.

Lemma mouse_ray_cast_first_of_equals_witness :
  (forall object,
     object ∈ helpers.Context.object_instances two_squares -> castable object)
  /\ (forall hit, hit ∈ hits_of two_squares (0, 0)%Z -> fst hit <> NaN)
  /\ hits_of two_squares (0, 0)%Z <> []
  /\ exists result length_squared i,
       mouse_ray_cast two_squares (0, 0)%Z = Return result
       /\ hits_of two_squares (0, 0)%Z !! i = Some (length_squared, result)
       /\ forall j hit, (j < i)%nat -> hits_of two_squares (0, 0)%Z !! j = Some hit ->
            ltb length_squared (fst hit) = true.
Proof.
  split; [exact two_squares_castable|]. split; [exact two_squares_numbers|].
  split; [exact two_squares_hit|].
  exact (mouse_ray_cast_first_of_equals two_squares (0, 0)%Z
           two_squares_castable two_squares_numbers two_squares_hit).
Defined.

Lemma is_finite_inv (a : float) : is_finite a = true -> exists q, a = Fin q.
Proof. destruct a; try discriminate. eauto. Qed.

End ray_cast_choice.

(** ** The weight paint: range, order and repetition *)

Section weight_paint_more.

Lemma leb_le (p q : Q) : leb (Fin p) (Fin q) = true <-> p <= q.
Proof.
  unfold leb. cbn. rewrite Qle_alt. destruct (p ?= q); split; congruence.
Qed.

Lemma clip_unit_range (a : float) :
  a <> NaN ->
  leb (Fin 0) (clip a (Fin 0) (Fin 1)) = true /\ leb (clip a (Fin 0) (Fin 1)) (Fin 1) = true.
Proof.
  destruct a as [r| | |]; [intros _| | |congruence]; try (split; reflexivity).
  unfold clip, maximum. destruct (ltb (Fin r) (Fin 0)) eqn:H0.
  - split; reflexivity.
  - unfold minimum. destruct (ltb (Fin 1) (Fin r)) eqn:H1; [split; reflexivity|].
    rewrite !leb_le.
    split.
    + destruct (Qlt_le_dec r 0) as [H|H]; [|exact H]. apply ltb_lt in H. congruence.
    + destruct (Qlt_le_dec 1 r) as [H|H]; [|exact H]. apply ltb_lt in H. congruence.
Qed.

Lemma div_DEFORM_ZONE (d : Q) : (Fin d / DEFORM_ZONE)%float = Fin (Qred (d / (1 # 50))).
Proof. reflexivity. Qed.

(** The weight is a number between 0 and 1, whatever the elevation. *)
Lemma falloff_range (d : float) :
  leb (Fin 0) (falloff d) = true /\ leb (falloff d) (Fin 1) = true.
Proof.
  unfold falloff. destruct (geb d (Fin 0)) eqn:Hd; [|split; reflexivity].
  apply clip_unit_range. destruct d as [q| | |]; discriminate.
Qed.

(** The three regimes of the weight at a finite elevation. *)
Lemma falloff_regimes (d : Q) :
  exists w : Q,
    falloff (Fin d) ≈ Fin w
    /\ ((d <= 0 /\ w == 1)
        \/ (0 <= d /\ d <= 1 # 50 /\ w == 1 - 50 * d)
        \/ ((1 # 50) <= d /\ w == 0)).
Proof.
  unfold falloff. destruct (geb (Fin d) (Fin 0)) eqn:Hd.
  - apply leb_le in Hd. rewrite div_DEFORM_ZONE.
    assert (Hr : Qred (1 + - Qred (d / (1 # 50))) == 1 - 50 * d)
      by (rewrite !Qred_correct; field).
    change (Fin 1 - Fin (Qred (d / (1 # 50))))%float
      with (Fin (Qred (1 + - Qred (d / (1 # 50))))).
    set (r := Qred (1 + - Qred (d / (1 # 50)))) in *.
    unfold clip, maximum. destruct (ltb (Fin r) (Fin 0)) eqn:H0.
    + apply ltb_lt in H0. exists 0. split; [reflexivity|]. right. right. lra.
    + assert (0 <= r).
      { destruct (Qlt_le_dec r 0) as [H|H]; [|exact H]. apply ltb_lt in H. congruence. }
      unfold minimum. destruct (ltb (Fin 1) (Fin r)) eqn:H1.
      * apply ltb_lt in H1. exists 1. split; [reflexivity|]. left. lra.
      * assert (r <= 1).
        { destruct (Qlt_le_dec 1 r) as [H'|H']; [|exact H'].
          apply ltb_lt in H'. congruence. }
        exists r. split; [reflexivity|]. right. left. lra.
  - exists 1. split; [reflexivity|]. left. split; [|reflexivity].
    destruct (Qlt_le_dec 0 d) as [H|H]; [|exact H].
    assert (leb (Fin 0) (Fin d) = true) by (apply leb_le; lra).
    unfold geb in Hd. congruence.
Qed.

(** Higher up, the weight is not larger. *)
Lemma falloff_antitone (d1 d2 : float) :
  leb d1 d2 = true ->
  leb (falloff d2) (falloff d1) = true.
Proof.
  intros Hle.
  destruct d1 as [p| | |], d2 as [q| | |]; try discriminate;
    try apply falloff_range; try reflexivity.
  apply leb_le in Hle.
  destruct (falloff_regimes p) as (wp & -> & Hp), (falloff_regimes q) as (wq & -> & Hq).
  apply leb_le. lra.
Qed.

(** X5.  Every weight that the weight paint assigns is a number between 0
    and 1, for all vertex coordinates and pivots, infinities and
    not-a-number included. *)
Theorem weight_paint_unit_range (vertices : list MeshVertex.t) (foot : VertexGroup)
    (ankle_point : Vector) :
  well_indexed vertices ->
  exists foot' : VertexGroup,
    _weight_paint vertices foot ankle_point = Return foot'
    /\ forall i v, vertices !! i = Some v ->
         exists weight,
           foot' !! i = Some weight
           /\ leb (Fin 0) weight = true /\ leb weight (Fin 1) = true.
Proof.
  intros Hwf.
  destruct (weight_paint_spec vertices foot ankle_point Hwf)
    as (foot' & Hrun & Hin & _).
  exists foot'. split; [exact Hrun|]. intros i v Hv.
  eexists. split; [exact (Hin i v Hv)|]. apply falloff_range.
Qed.

Lemma weight_paint_unit_range_witness :
  well_indexed five_vertices
  /\ exists foot' : VertexGroup,
       _weight_paint five_vertices ∅ (scene.vec 0 0 0) = Return foot'
       /\ forall i v, five_vertices !! i = Some v ->
            exists weight,
              foot' !! i = Some weight
              /\ leb (Fin 0) weight = true /\ leb weight (Fin 1) = true.
Proof.
  split; [exact five_vertices_well_indexed|].
  exact (weight_paint_unit_range five_vertices ∅ (scene.vec 0 0 0)
           five_vertices_well_indexed).
Defined.

(** X6.  The weights fall with the height: of two vertices, the one whose
    elevation over the pivot is not smaller gets a weight that is not
    larger. *)
Theorem weight_paint_antitone (vertices : list MeshVertex.t) (foot : VertexGroup)
    (ankle_point : Vector) :
  well_indexed vertices ->
  exists foot' : VertexGroup,
    _weight_paint vertices foot ankle_point = Return foot'
    /\ forall i j vi vj,
         vertices !! i = Some vi -> vertices !! j = Some vj ->
         leb (elevation_of ankle_point vi) (elevation_of ankle_point vj) = true ->
         exists wi wj,
           foot' !! i = Some wi /\ foot' !! j = Some wj /\ leb wj wi = true.
Proof.
  intros Hwf.
  destruct (weight_paint_spec vertices foot ankle_point Hwf)
    as (foot' & Hrun & Hin & _).
  exists foot'. split; [exact Hrun|]. intros i j vi vj Hi Hj Hle.
  eexists _, _. split; [exact (Hin i vi Hi)|]. split; [exact (Hin j vj Hj)|].
  now apply falloff_antitone.
Qed.

Lemma weight_paint_antitone_witness :
  well_indexed five_vertices
  /\ exists foot' : VertexGroup,
       _weight_paint five_vertices ∅ (scene.vec 0 0 0) = Return foot'
       /\ forall i j vi vj,
            five_vertices !! i = Some vi -> five_vertices !! j = Some vj ->
            leb (elevation_of (scene.vec 0 0 0) vi) (elevation_of (scene.vec 0 0 0) vj)
            = true ->
            exists wi wj,
              foot' !! i = Some wi /\ foot' !! j = Some wj /\ leb wj wi = true.
Proof.
  split; [exact five_vertices_well_indexed|].
  exact (weight_paint_antitone five_vertices ∅ (scene.vec 0 0 0)
           five_vertices_well_indexed).
Defined.

(** X7.  The weight paint overwrites: the weights it leaves at the
    vertices do not depend on what the group held before, and painting a
    second time with the same pivot changes nothing. *)
Theorem weight_paint_overwrites (vertices : list MeshVertex.t) (ankle_point : Vector) :
  well_indexed vertices ->
  (forall foot1 foot2 : VertexGroup,
     exists foot1' foot2' : VertexGroup,
       _weight_paint vertices foot1 ankle_point = Return foot1'
       /\ _weight_paint vertices foot2 ankle_point = Return foot2'
       /\ forall i, (i < length vertices)%nat -> foot1' !! i = foot2' !! i)
  /\ (forall foot foot' : VertexGroup,
        _weight_paint vertices foot ankle_point = Return foot' ->
        _weight_paint vertices foot' ankle_point = Return foot').
Proof.
  intros Hwf. split.
  - intros foot1 foot2.
    destruct (weight_paint_spec vertices foot1 ankle_point Hwf)
      as (foot1' & Hrun1 & Hin1 & _).
    destruct (weight_paint_spec vertices foot2 ankle_point Hwf)
      as (foot2' & Hrun2 & Hin2 & _).
    exists foot1', foot2'. split; [exact Hrun1|]. split; [exact Hrun2|].
    intros i Hi. destruct (lookup_lt_is_Some_2 vertices i Hi) as [v Hv].
    now rewrite (Hin1 i v Hv), (Hin2 i v Hv).
  - intros foot foot' Hrun.
    destruct (weight_paint_spec vertices foot ankle_point Hwf)
      as (foot1 & Hrun1 & Hin1 & Hout1).
    destruct (weight_paint_spec vertices foot' ankle_point Hwf)
      as (foot2 & Hrun2 & Hin2 & Hout2).
    unfold _weight_paint in *. rewrite Hrun in Hrun1. injection Hrun1 as <-.
    rewrite Hrun2. f_equal. apply map_eq. intros i.
    destruct (decide (i < length vertices)%nat) as [Hi|Hi].
    + destruct (lookup_lt_is_Some_2 vertices i Hi) as [v Hv].
      now rewrite (Hin1 i v Hv), (Hin2 i v Hv).
    + apply Hout2. lia.
Qed.

Lemma weight_paint_overwrites_witness :
  well_indexed five_vertices
  /\ exists foot1' foot2' : VertexGroup,
       _weight_paint five_vertices ∅ (scene.vec 0 0 0) = Return foot1'
       /\ _weight_paint five_vertices {[ 2%nat := Fin 0 ]} (scene.vec 0 0 0)
          = Return foot2'
       /\ forall i, (i < length five_vertices)%nat -> foot1' !! i = foot2' !! i.
Proof.
  split; [exact five_vertices_well_indexed|].
  exact (proj1 (weight_paint_overwrites five_vertices (scene.vec 0 0 0)
                  five_vertices_well_indexed) ∅ {[ 2%nat := Fin 0 ]}).
Defined.

End weight_paint_more.

(** ** The pivot vertex *)

Section pivot_vertex.

Import builtins set_foot_pivot.

Lemma falloff_at_pivot (a : float) : falloff (a - a)%float ≈ Fin 1.
Proof.
  destruct a as [q| | |]; try reflexivity.
  change (Fin q - Fin q)%float with (Fin (Qred (q + - q))).
  destruct (falloff_regimes (Qred (q + - q))) as (w & -> & Hw).
  assert (Qred (q + - q) == 0) by (rewrite Qred_correct; ring).
  cbn. lra.
Qed.

(** X8.  In [ORTHOPEN_OT_set_foot_pivot.execute], the weight paint is
    run only when exactly one vertex is selected, any other number of
    selected vertices failing the assertion; the selected vertex becomes
    the ankle and itself gets the weight 1. *)
Theorem pivot_vertex_full_weight (vertices : list SelectableVertex) (foot : VertexGroup) :
  well_indexed (map vertex vertices) ->
  (length (List.filter select vertices) <> 1%nat ->
   paint_from_selection vertices foot = Raised AssertionError)
  /\ (forall v,
        List.filter select vertices = [v] ->
        exists (foot' : VertexGroup) weight,
          paint_from_selection vertices foot = Done (MeshVertex.co (vertex v), foot')
          /\ foot' !! MeshVertex.index (vertex v) = Some weight
          /\ weight ≈ Fin 1).
Proof.
  intros Hwf. unfold paint_from_selection. split.
  - intros Hlen. rewrite length_map.
    destruct (Nat.eqb_spec (length (List.filter select vertices)) 1); [contradiction|].
    reflexivity.
  - intros v Hsel. rewrite Hsel. cbn [map length Nat.eqb assert_ mbind raising_bind].
    destruct (weight_paint_spec (map vertex vertices) foot
                (MeshVertex.co (vertex v)) Hwf) as (foot' & Hrun & Hin & _).
    rewrite Hrun. cbn [call].
    assert (Hv : In v (List.filter select vertices)) by (rewrite Hsel; now left).
    apply filter_In in Hv as [Hv _].
    apply list_elem_of_In, list_elem_of_lookup in Hv as [k Hk].
    assert (Hk' : map vertex vertices !! k = Some (vertex v))
      by (rewrite list_lookup_fmap, Hk; reflexivity).
    exists foot'. eexists. split; [reflexivity|].
    rewrite (Hwf k _ Hk'). split; [exact (Hin k _ Hk')|].
    apply falloff_at_pivot.
Qed.

Lemma pivot_vertex_full_weight_witness :
  well_indexed (map vertex marked_leg)
  /\ List.filter select marked_leg = [mkSelectable (vertex_at 1 0.01) true]
  /\ exists (foot' : VertexGroup) weight,
       paint_from_selection marked_leg ∅ = Done (scene.vec 0 0 0.01, foot')
       /\ foot' !! 1%nat = Some weight
       /\ weight ≈ Fin 1.
Proof.
  assert (Hwf : well_indexed (map vertex marked_leg)).
  { intros i v H. do 3 (destruct i as [|i]; [injection H as <-; reflexivity|]).
    discriminate. }
  split; [exact Hwf|]. split; [reflexivity|].
  exact (proj2 (pivot_vertex_full_weight marked_leg ∅ Hwf) _ eq_refl).
Defined.

End pivot_vertex.

(** ** The size of an object and a second fit *)

Section fitment_more.

Lemma foldl_maximum_finite (l : list float) :
  Forall (fun b => is_finite b = true) l ->
  forall a : Q, exists M : Q, foldl maximum (Fin a) l = Fin M /\ a <= M.
Proof.
  induction 1 as [|b l Hb _ IH]; intros a.
  - exists a. split; [reflexivity | lra].
  - apply is_finite_inv in Hb as [q ->]. cbn [foldl].
    change (maximum (Fin a) (Fin q)) with (if ltb (Fin a) (Fin q) then Fin q else Fin a).
    destruct (ltb (Fin a) (Fin q)) eqn:Hlt.
    + apply ltb_lt in Hlt. destruct (IH q) as (M & -> & HM).
      exists M. split; [reflexivity | lra].
    + apply IH.
Qed.

Lemma foldl_minimum_finite (l : list float) :
  Forall (fun b => is_finite b = true) l ->
  forall a : Q, exists m : Q, foldl minimum (Fin a) l = Fin m /\ m <= a.
Proof.
  induction 1 as [|b l Hb _ IH]; intros a.
  - exists a. split; [reflexivity | lra].
  - apply is_finite_inv in Hb as [q ->]. cbn [foldl].
    change (minimum (Fin a) (Fin q)) with (if ltb (Fin q) (Fin a) then Fin q else Fin a).
    destruct (ltb (Fin q) (Fin a)) eqn:Hlt.
    + apply ltb_lt in Hlt. destruct (IH q) as (m & -> & Hm).
      exists m. split; [reflexivity | lra].
    + apply IH.
Qed.

Lemma component_foldl_maximum3 axis (l : list Vector) :
  forall v, component axis (foldl np.maximum3 v l)
            = foldl maximum (component axis v) (map (component axis) l).
Proof.
  induction l as [|u l IH]; intros v; [reflexivity|].
  cbn [foldl map]. rewrite IH. now destruct axis.
Qed.

Lemma component_foldl_minimum3 axis (l : list Vector) :
  forall v, component axis (foldl np.minimum3 v l)
            = foldl minimum (component axis v) (map (component axis) l).
Proof.
  induction l as [|u l IH]; intros v; [reflexivity|].
  cbn [foldl map]. rewrite IH. now destruct axis.
Qed.

Lemma finite_vector_component axis v :
  finite_vector v -> is_finite (component axis v) = true.
Proof. intros (Hx & Hy & Hz). now destruct axis. Qed.

(** For finite corners the extent is a finite number, not negative. *)
Lemma extent_nonnegative object axis :
  finite_box (Object.bound_box object) ->
  exists e : Q, component axis (extent object) = Fin e /\ 0 <= e.
Proof.
  unfold finite_box, extent, np.amax, np.amin.
  set (first := fst (np.rows (Object.bound_box object))).
  set (rest := snd (np.rows (Object.bound_box object))).
  intros Hfin. apply Forall_cons in Hfin as [Hfirst Hrest].
  rewrite component_subtract, component_foldl_maximum3, component_foldl_minimum3.
  apply (finite_vector_component axis), is_finite_inv in Hfirst as [a ->].
  assert (Hrest' : Forall (fun b => is_finite b = true) (map (component axis) rest)).
  { apply Forall_fmap. eapply Forall_impl; [exact Hrest|].
    intros v Hv. now apply finite_vector_component. }
  destruct (foldl_maximum_finite _ Hrest' a) as (M & -> & HM).
  destruct (foldl_minimum_finite _ Hrest' a) as (m & -> & Hm).
  eexists. split; [reflexivity|]. rewrite Qred_correct. lra.
Qed.

(** X9.  For an object with finite corners, the extent of the bounding
    box is never negative on any axis, so the sign of each component of
    [object_size] is that of the scale: not negative for a positive scale,
    not positive for a negative one. *)
Theorem object_size_sign object axis :
  finite_box (Object.bound_box object) ->
  leb (Fin 0) (component axis (extent object)) = true
  /\ (is_positive (component axis (Object.scale object)) ->
      leb (Fin 0) (component axis (object_size object)) = true)
  /\ (is_negative (component axis (Object.scale object)) ->
      leb (component axis (object_size object)) (Fin 0) = true).
Proof.
  intros Hfin. destruct (extent_nonnegative object axis Hfin) as (e & He & Hpos).
  unfold object_size. fold (extent object). rewrite component_multiply, He.
  split; [now apply leb_le|]. split.
  - intros Hs. apply positive_inv in Hs as (s & -> & Hs).
    cbn [mul]. apply leb_le. rewrite Qred_correct. nra.
  - intros Hs. apply negative_inv in Hs as (s & -> & Hs).
    cbn [mul]. apply leb_le. rewrite Qred_correct. nra.
Qed.

Lemma object_size_sign_witness :
  finite_box (Object.bound_box mirrored_calf)
  /\ is_negative (component AxisX (Object.scale mirrored_calf))
  /\ leb (component AxisX (object_size mirrored_calf)) (Fin 0) = true.
Proof.
  assert (Hfin : finite_box (Object.bound_box mirrored_calf))
    by (repeat constructor).
  assert (Hneg : is_negative (component AxisX (Object.scale mirrored_calf)))
    by reflexivity.
  split; [exact Hfin|]. split; [exact Hneg|].
  exact (proj2 (proj2 (object_size_sign mirrored_calf AxisX Hfin)) Hneg).
Defined.

End fitment_more.

(** ** The names of the operators *)

Section operator_names.

Local Open Scope string_scope.

Lemma string_app_nil_l (s : string) : "" ++ s = s.
Proof. reflexivity. Qed.

Lemma string_app_cons c (a b : string) : String c a ++ b = String c (a ++ b).
Proof. reflexivity. Qed.

Lemma string_app_nil_r (s : string) : s ++ "" = s.
Proof.
  induction s as [|c s IH]; [reflexivity|]. rewrite string_app_cons. congruence.
Qed.

Lemma string_app_assoc (a b c : string) : (a ++ b) ++ c = a ++ (b ++ c).
Proof.
  induction a as [|x a IH]; [reflexivity|]. rewrite !string_app_cons. congruence.
Qed.

Lemma string_length_app (a b : string) :
  String.length (a ++ b) = (String.length a + String.length b)%nat.
Proof.
  induction a as [|x a IH]; [reflexivity|]. rewrite string_app_cons. cbn. congruence.
Qed.

Lemma prefix_app (a b : string) : String.prefix a (a ++ b) = true.
Proof.
  induction a as [|x a IH]; [now destruct b|]. rewrite string_app_cons. cbn.
  destruct (Ascii.ascii_dec x x); [exact IH | congruence].
Qed.

Lemma prefix_inv (a s : string) : String.prefix a s = true -> exists t, s = a ++ t.
Proof.
  revert s. induction a as [|x a IH]; intros s H.
  - exists s. reflexivity.
  - destruct s as [|y s]; [discriminate|]. cbn in H.
    destruct (Ascii.ascii_dec x y) as [->|]; [|discriminate].
    destruct (IH s H) as [t ->]. now exists t.
Qed.

Lemma prefix_trans_app (a s t : string) :
  String.prefix a s = true -> String.prefix a (s ++ t) = true.
Proof.
  intros H. destruct (prefix_inv a s H) as [u ->].
  rewrite string_app_assoc. apply prefix_app.
Qed.

Lemma drop_app (a b : string) : str.drop (String.length a) (a ++ b) = b.
Proof.
  induction a as [|x a IH]; [now destruct b|]. rewrite string_app_cons. exact IH.
Qed.

Lemma length_drop_prefix (sep s : string) :
  sep <> "" -> String.prefix sep s = true ->
  (String.length (str.drop (String.length sep) s) < String.length s)%nat.
Proof.
  intros Hsep H. destruct (prefix_inv sep s H) as [t ->].
  rewrite drop_app, string_length_app. destruct sep; [congruence | cbn; lia].
Qed.

Lemma split_from_fuel (sep : string) :
  sep <> "" ->
  forall n s fuel1 fuel2,
    (String.length s <= n)%nat ->
    (String.length s <= fuel1)%nat -> (String.length s <= fuel2)%nat ->
    str.split_from fuel1 sep s = str.split_from fuel2 sep s.
Proof.
  intros Hsep. induction n as [|n IH]; intros s fuel1 fuel2 Hn H1 H2.
  - destruct s; [|cbn in Hn; lia]. now destruct fuel1, fuel2.
  - destruct s as [|c s]; [now destruct fuel1, fuel2|].
    destruct fuel1 as [|fuel1], fuel2 as [|fuel2]; cbn in H1, H2, Hn; try lia.
    cbn [str.split_from].
    destruct (String.prefix sep (String c s)) eqn:Hp.
    + f_equal. pose proof (length_drop_prefix sep _ Hsep Hp) as Hlt.
      cbn [String.length] in Hlt. apply IH; lia.
    + f_equal. apply IH; lia.
Qed.

Lemma parts_nil (sep : string) : str.parts sep "" = [""].
Proof. reflexivity. Qed.

Lemma parts_match (sep : string) c s :
  sep <> "" -> String.prefix sep (String c s) = true ->
  str.parts sep (String c s)
  = "" :: str.parts sep (str.drop (String.length sep) (String c s)).
Proof.
  intros Hsep Hp. unfold str.parts. cbn [String.length str.split_from]. rewrite Hp.
  f_equal. pose proof (length_drop_prefix sep _ Hsep Hp) as Hlt.
  cbn [String.length] in Hlt.
  apply (split_from_fuel sep Hsep (String.length s)); lia.
Qed.

Lemma parts_step (sep : string) c s :
  String.prefix sep (String c s) = false ->
  str.parts sep (String c s) = str.extend c (str.parts sep s).
Proof.
  intros Hp. unfold str.parts. cbn [String.length str.split_from]. now rewrite Hp.
Qed.

Lemma extend_not_nil c l : str.extend c l <> [].
Proof. now destruct l. Qed.

Lemma parts_not_nil (sep s : string) : str.parts sep s <> [].
Proof.
  unfold str.parts. generalize (String.length s) as fuel. intros fuel.
  destruct fuel as [|fuel], s as [|c s]; try discriminate.
  cbn [str.split_from].
  destruct (String.prefix sep (String c s)); [discriminate | apply extend_not_nil].
Qed.

(** Without an occurrence of the separator there is one part. *)
Lemma parts_without (sep s : string) : str.contains sep s = false -> str.parts sep s = [s].
Proof.
  induction s as [|c s IH]; intros H; [reflexivity|].
  cbn [str.contains] in H. apply orb_false_iff in H as [Hp Hc].
  rewrite parts_step by exact Hp. now rewrite IH.
Qed.

(** A part free of a one-character separator, then the separator. *)
Lemma parts_char_app (d : Ascii.ascii) (p rest : string) :
  str.contains (String d "") p = false ->
  str.parts (String d "") (p ++ String d rest) = p :: str.parts (String d "") rest.
Proof.
  induction p as [|c p IH]; intros H.
  - rewrite ?string_app_cons, ?string_app_nil_l. rewrite parts_match; [|discriminate|].
    + reflexivity.
    + cbn. destruct (Ascii.ascii_dec d d); [now destruct rest | congruence].
  - cbn [str.contains] in H. apply orb_false_iff in H as [Hp Hc].
    rewrite ?string_app_cons, ?string_app_nil_l. rewrite parts_step.
    + now rewrite IH.
    + cbn in *. destruct (Ascii.ascii_dec d c); [|reflexivity].
      now destruct p.
Qed.

Lemma last_cons_not_nil {A : Type} (a d : A) (l : list A) :
  l <> [] -> List.last (a :: l) d = List.last l d.
Proof. now destruct l. Qed.

Lemma extend_app (c : Ascii.ascii) (init tail : list string) :
  init <> [] -> str.extend c (init ++ tail)%list = (str.extend c init ++ tail)%list.
Proof. now destruct init. Qed.

Lemma prefix_cons a (s1 : string) b (s2 : string) :
  String.prefix (String a s1) (String b s2)
  = if Ascii.ascii_dec a b then String.prefix s1 s2 else false.
Proof. reflexivity. Qed.

(** An occurrence of ["OT_"] that starts inside [w], in [w] followed by
    ["OT_"], lies inside [w]. *)
Lemma prefix_OT_inside (w S : string) :
  w <> "" -> String.prefix "OT_" (w ++ "OT_" ++ S) = true ->
  exists w', w = "OT_" ++ w'.
Proof.
  intros Hw H.
  destruct w as [|c1 [|c2 [|c3 w']]]; [congruence| | |];
    rewrite ?string_app_cons, ?string_app_nil_l in H;
    rewrite !prefix_cons in H;
    repeat match type of H with
           | context [Ascii.ascii_dec ?a ?b] =>
               destruct (Ascii.ascii_dec a b); try congruence; subst
           end.
  now exists w'.
Qed.

(** The parts of a string that ends in ["OT_"] and [S] end with the parts
    of [S]. *)
Lemma parts_OT_app (S : string) :
  forall n w, (String.length w <= n)%nat ->
    exists init, init <> []
      /\ str.parts "OT_" (w ++ "OT_" ++ S) = (init ++ str.parts "OT_" S)%list.
Proof.
  induction n as [|n IH]; intros w Hn.
  - destruct w; [|cbn in Hn; lia]. exists [""]. split; [discriminate|].
    rewrite ?string_app_cons, ?string_app_nil_l. rewrite parts_match; [reflexivity|discriminate|now destruct S].
  - destruct w as [|c w].
    + exists [""]. split; [discriminate|].
      rewrite ?string_app_cons, ?string_app_nil_l. rewrite parts_match; [reflexivity|discriminate|now destruct S].
    + destruct (String.prefix "OT_" (String c w ++ "OT_" ++ S)) eqn:Hp.
      * destruct (prefix_OT_inside (String c w) S ltac:(discriminate) Hp) as [w' Hw'].
        rewrite Hw'. rewrite ?string_app_cons, ?string_app_nil_l.
        rewrite parts_match; [|discriminate|now destruct w']. cbn [str.drop String.length]. change (w' ++ _) with (w' ++ "OT_" ++ S).
        destruct (IH w') as (init & Hinit & ->).
        { rewrite Hw' in Hn. rewrite ?string_app_cons, ?string_app_nil_l in Hn.
          cbn [String.length] in Hn. lia. }
        exists ("" :: init). split; [discriminate | reflexivity].
      * rewrite ?string_app_cons, ?string_app_nil_l in *. rewrite parts_step by exact Hp.
        destruct (IH w) as (init & Hinit & ->); [cbn in Hn; lia|].
        exists (str.extend c init). split; [apply extend_not_nil|].
        now apply extend_app.
Qed.

Lemma last_parts_OT (w S : string) :
  str.contains "OT_" S = false ->
  List.last (str.parts "OT_" (w ++ "OT_" ++ S)) "" = S.
Proof.
  intros HS. destruct (parts_OT_app S (String.length w) w (le_n _)) as (init & _ & ->).
  rewrite (parts_without _ _ HS). apply last_last.
Qed.

(** X10.  The contract of the docstring: for a class name made of a
    prefix without underscore, then [_OT_], then a suffix in which [OT_]
    does not occur, the mangled name is the prefix and the suffix in lower
    case with a dot between them. *)
Theorem mangle_prefix_OT_suffix (prefix suffix : string) :
  str.contains "_" prefix = false ->
  str.contains "OT_" suffix = false ->
  naming.mangle_operator_name (prefix ++ "_OT_" ++ suffix)
  = Return (str.lower prefix ++ "." ++ str.lower suffix).
Proof.
  intros Hprefix Hsuffix. unfold naming.mangle_operator_name, str.split.
  cbn [mbind outcome_bind].
  assert (Hparts : str.parts "_" (prefix ++ "_OT_" ++ suffix)
                   = prefix :: "OT" :: str.parts "_" suffix).
  { rewrite (string_app_cons _ "OT_" suffix).
    rewrite parts_char_app by exact Hprefix. f_equal.
    rewrite ?string_app_cons, ?string_app_nil_l.
    do 2 (rewrite parts_step by reflexivity).
    rewrite parts_match; [reflexivity | discriminate | now destruct suffix]. }
  rewrite Hparts. rewrite bool_decide_true by (right; left).
  cbn [mbind outcome_bind List.hd]. do 3 f_equal.
  replace (prefix ++ "_OT_" ++ suffix) with ((prefix ++ "_") ++ "OT_" ++ suffix)
    by (now rewrite string_app_assoc).
  now rewrite last_parts_OT.
Qed.

Lemma mangle_prefix_OT_suffix_witness :
  str.contains "_" "ORTHOPEN" = false
  /\ str.contains "OT_" "set_foot_pivot" = false
  /\ naming.mangle_operator_name "ORTHOPEN_OT_set_foot_pivot"
     = Return "orthopen.set_foot_pivot".
Proof.
  split; [reflexivity|]. split; [reflexivity|].
  exact (mangle_prefix_OT_suffix "ORTHOPEN" "set_foot_pivot" eq_refl eq_refl).
Defined.

Lemma join_cons_not_nil (sep part : string) (l : list string) :
  l <> [] -> str.join sep (part :: l) = part ++ sep ++ str.join sep l.
Proof. now destruct l. Qed.

Lemma join_extend (sep : string) c (l : list string) :
  l <> [] -> str.join sep (str.extend c l) = String c (str.join sep l).
Proof. destruct l as [|p [|q l]]; [congruence| |]; reflexivity. Qed.

(** The parts, joined by the separator, give the string back. *)
Lemma join_parts (sep : string) :
  sep <> "" ->
  forall n s, (String.length s <= n)%nat -> str.join sep (str.parts sep s) = s.
Proof.
  intros Hsep. induction n as [|n IH]; intros s Hn.
  - destruct s; [reflexivity | cbn in Hn; lia].
  - destruct s as [|c s]; [reflexivity|].
    destruct (String.prefix sep (String c s)) eqn:Hp.
    + rewrite parts_match by assumption.
      rewrite join_cons_not_nil by apply parts_not_nil.
      pose proof (length_drop_prefix sep _ Hsep Hp) as Hlt.
      rewrite IH by (cbn in Hn, Hlt; lia).
      destruct (prefix_inv sep _ Hp) as [t Ht]. rewrite Ht at 2.
      rewrite Ht, drop_app. reflexivity.
    + rewrite parts_step by assumption.
      rewrite join_extend by apply parts_not_nil.
      rewrite IH by (cbn in Hn; lia). reflexivity.
Qed.

Lemma first_part_prefix (sep s part : string) (l : list string) :
  sep <> "" -> str.parts sep s = part :: l -> exists t, s = part ++ t.
Proof.
  intros Hsep Hparts. pose proof (join_parts sep Hsep _ s (le_n _)) as Hjoin.
  rewrite Hparts in Hjoin. destruct l as [|q l].
  - exists "". cbn in Hjoin. now rewrite string_app_nil_r.
  - rewrite join_cons_not_nil in Hjoin by discriminate. eauto.
Qed.

(** No part holds the separator. *)
Lemma parts_free (sep : string) :
  sep <> "" ->
  forall n s, (String.length s <= n)%nat ->
    forall part, part ∈ str.parts sep s -> str.contains sep part = false.
Proof.
  intros Hsep.
  assert (Hempty : str.contains sep "" = false) by (destruct sep; [congruence|reflexivity]).
  induction n as [|n IH]; intros s Hn part Hin.
  - destruct s; [|cbn in Hn; lia]. rewrite parts_nil in Hin.
    apply list_elem_of_singleton in Hin as ->. exact Hempty.
  - destruct s as [|c s].
    { rewrite parts_nil in Hin. apply list_elem_of_singleton in Hin as ->. exact Hempty. }
    destruct (String.prefix sep (String c s)) eqn:Hp.
    + rewrite parts_match in Hin by assumption.
      apply elem_of_cons in Hin as [->|Hin]; [exact Hempty|].
      pose proof (length_drop_prefix sep _ Hsep Hp) as Hlt.
      apply (IH (str.drop (String.length sep) (String c s))); [cbn in Hn, Hlt; lia|].
      exact Hin.
    + rewrite parts_step in Hin by assumption.
      destruct (str.parts sep s) as [|p ps] eqn:Hparts;
        [now apply parts_not_nil in Hparts|].
      cbn [str.extend] in Hin.
      assert (Hrest : forall q, q ∈ p :: ps -> str.contains sep q = false).
      { intros q Hq. apply (IH s); [cbn in Hn; lia|]. now rewrite Hparts. }
      apply elem_of_cons in Hin as [->|Hin]; [|apply Hrest; now right].
      cbn [str.contains]. rewrite (Hrest p) by now left.
      rewrite orb_false_r.
      destruct (String.prefix sep (String c p)) eqn:Hp'; [|reflexivity].
      destruct (first_part_prefix sep s p ps Hsep Hparts) as [t Ht].
      rewrite Ht in Hp. change (String c (p ++ t)) with (String c p ++ t) in Hp.
      rewrite prefix_trans_app in Hp by exact Hp'. discriminate.
Qed.

(** X11.  The error of [mangle_operator_name]: the class name is cut at
    its underscores into fields, which joined by underscores give the name
    back and none of which holds an underscore; the call raises, and then
    [ValueError], exactly when no field is [OT]. *)
Theorem mangle_raises_iff (class_name : string) :
  str.join "_" (str.parts "_" class_name) = class_name
  /\ (forall field, field ∈ str.parts "_" class_name -> str.contains "_" field = false)
  /\ (naming.mangle_operator_name class_name = Raise ValueError
      <-> "OT" ∉ str.parts "_" class_name)
  /\ (forall e, naming.mangle_operator_name class_name = Raise e -> e = ValueError).
Proof.
  split; [apply (join_parts "_" ltac:(discriminate) _ _ (le_n _))|].
  split; [apply (parts_free "_" ltac:(discriminate) _ _ (le_n _))|].
  unfold naming.mangle_operator_name, str.split. cbn [mbind outcome_bind].
  destruct (bool_decide_reflect ("OT" ∈ str.parts "_" class_name)) as [Hin|Hin];
    cbn [mbind outcome_bind]; split.
  - split; [discriminate | contradiction].
  - discriminate.
  - tauto.
  - now intros e [= <-].
Qed.

Lemma lower_char_idem (c : Ascii.ascii) : str.lower_char (str.lower_char c) = str.lower_char c.
Proof. destruct c as [[] [] [] [] [] [] [] []]; reflexivity. Qed.

Lemma lower_idem (s : string) : str.lower (str.lower s) = str.lower s.
Proof.
  induction s as [|c s IH]; [reflexivity|]. cbn. now rewrite lower_char_idem, IH.
Qed.

Lemma lower_app (a b : string) : str.lower (a ++ b) = str.lower a ++ str.lower b.
Proof.
  induction a as [|c a IH]; [reflexivity|].
  rewrite string_app_cons. cbn [str.lower]. now rewrite string_app_cons, IH.
Qed.

Lemma contains_app (sub a b : string) : str.contains sub (a ++ sub ++ b) = true.
Proof.
  induction a as [|c a IH].
  - rewrite ?string_app_cons, ?string_app_nil_l. destruct (sub ++ b) eqn:H; cbn [str.contains];
      rewrite <- H, prefix_app; reflexivity.
  - rewrite ?string_app_cons. cbn [str.contains]. rewrite IH. apply orb_true_r.
Qed.

(** X12.  Every name that [mangle_operator_name] returns is in lower case
    and holds a dot, as Blender asks of an operator's [bl_idname]. *)
Theorem mangle_lower_case_dotted (class_name name : string) :
  naming.mangle_operator_name class_name = Return name ->
  str.lower name = name /\ str.contains "." name = true.
Proof.
  unfold naming.mangle_operator_name, str.split. cbn [mbind outcome_bind].
  destruct (bool_decide _); [|discriminate]. cbn [mbind outcome_bind].
  intros [= <-]. split.
  - rewrite !lower_app, !lower_idem. reflexivity.
  - apply contains_app.
Qed.

Lemma mangle_lower_case_dotted_witness :
  naming.mangle_operator_name "MYMODULE_OT_My_Operator" = Return "mymodule.my_operator"
  /\ str.lower "mymodule.my_operator" = "mymodule.my_operator"
  /\ str.contains "." "mymodule.my_operator" = true.
Proof.
  assert (H : naming.mangle_operator_name "MYMODULE_OT_My_Operator"
              = Return "mymodule.my_operator") by (vm_compute; reflexivity).
  split; [exact H|].
  exact (mangle_lower_case_dotted _ _ H).
Defined.

End operator_names.

(** ** The import of the parts *)

Section import_more.

Import builtins import_assets.

Local Open Scope string_scope.
Local Open Scope list_scope.

Lemma bound_to_snoc_none pattern entries local :
  bound_to pattern entries local -> bound_to pattern (entries ++ [None]) local.
Proof.
  destruct local as [obj|]; cbn.
  - intros (before & after & -> & Hc & Hafter).
    exists before, (after ++ [None]). split; [now rewrite <- app_assoc|].
    split; [exact Hc|]. intros other Hin.
    apply elem_of_app in Hin as [Hin|Hin]; [now apply Hafter|].
    apply list_elem_of_singleton in Hin. discriminate.
  - intros Hno other Hin.
    apply elem_of_app in Hin as [Hin|Hin]; [now apply Hno|].
    apply list_elem_of_singleton in Hin. discriminate.
Qed.

Lemma bound_to_snoc_match pattern entries obj :
  str.contains pattern (Object.name obj) = true ->
  bound_to pattern (entries ++ [Some obj]) (Some obj).
Proof.
  intros Hc. exists entries, []. split; [reflexivity|]. split; [exact Hc|].
  intros other Hin. now apply elem_of_nil in Hin.
Qed.

Lemma bound_to_snoc_other pattern entries local obj :
  str.contains pattern (Object.name obj) = false ->
  bound_to pattern entries local -> bound_to pattern (entries ++ [Some obj]) local.
Proof.
  intros Hc. destruct local as [found|]; cbn.
  - intros (before & after & -> & Hfound & Hafter).
    exists before, (after ++ [Some obj]). split; [now rewrite <- app_assoc|].
    split; [exact Hfound|]. intros other Hin.
    apply elem_of_app in Hin as [Hin|Hin]; [now apply Hafter|].
    apply list_elem_of_singleton in Hin. now injection Hin as ->.
  - intros Hno other Hin.
    apply elem_of_app in Hin as [Hin|Hin]; [now apply Hno|].
    apply list_elem_of_singleton in Hin. now injection Hin as ->.
Qed.

(** The loop, from any state that it can have reached. *)
Lemma link_loop (entries : list (option Object.t)) :
  forall seen objects locals,
    bound_to "cosmetics_main" seen (cosmetics_main locals) ->
    bound_to "clip" seen (fastening_clip locals) ->
    exists locals',
      foldl link_step (objects, locals) entries
      = (objects ++ omap id entries, locals')
      /\ bound_to "cosmetics_main" (seen ++ entries) (cosmetics_main locals')
      /\ bound_to "clip" (seen ++ entries) (fastening_clip locals').
Proof.
  induction entries as [|entry entries IH]; intros seen objects locals Hc Hf.
  - exists locals. cbn. now rewrite !app_nil_r.
  - cbn [foldl]. replace (seen ++ entry :: entries) with ((seen ++ [entry]) ++ entries)
      by (now rewrite <- app_assoc).
    destruct entry as [obj|]; cbn [link_step omap id].
    + set (l1 := if str.contains "cosmetics_main" (Object.name obj)
                 then mkLocals (Some obj) (fastening_clip locals) else locals).
      set (l2 := if str.contains "clip" (Object.name obj)
                 then mkLocals (cosmetics_main l1) (Some obj) else l1).
      destruct (IH (seen ++ [Some obj]) (objects ++ [obj]) l2) as (locals' & Heq & H1 & H2).
      * subst l2 l1.
        destruct (str.contains "cosmetics_main" (Object.name obj)) eqn:E1;
          destruct (str.contains "clip" (Object.name obj)) eqn:E2; cbn;
          first [ now apply bound_to_snoc_match | now apply bound_to_snoc_other ].
      * subst l2 l1.
        destruct (str.contains "cosmetics_main" (Object.name obj)) eqn:E1;
          destruct (str.contains "clip" (Object.name obj)) eqn:E2; cbn;
          first [ now apply bound_to_snoc_match | now apply bound_to_snoc_other ].
      * exists locals'. rewrite Heq. rewrite <- app_assoc. auto.
    + destruct (IH (seen ++ [None]) objects locals) as (locals' & Heq & H1 & H2);
        [now apply bound_to_snoc_none | now apply bound_to_snoc_none |].
      exists locals'. auto.
Qed.

(** X13.  Every object that the library gave, and no [None], is linked to
    the scene's collection, in the order of the library and behind the
    objects that were there; this holds also when the parts are not found
    and the call ends in the [AssertionError]. *)
Theorem import_links_every_object
    (data_to_objects : list (option Object.t)) (objects : list Object.t) :
  fst (_import_from_assets_folder data_to_objects objects)
  = objects ++ omap id data_to_objects.
Proof.
  unfold _import_from_assets_folder.
  destruct (link_loop data_to_objects [] objects (mkLocals None None))
    as (locals' & -> & _); [intros ? Hin; now apply elem_of_nil in Hin ..|].
  reflexivity.
Qed.

(** X14.  The parts that [_import_from_assets_folder] returns are the last
    object whose name holds [cosmetics_main] and the last object whose
    name holds [clip]; the call raises, and then [AssertionError], exactly
    when no object's name holds one of the two patterns. *)
Theorem import_returns_last_matches
    (data_to_objects : list (option Object.t)) (objects : list Object.t) :
  match snd (_import_from_assets_folder data_to_objects objects) with
  | Done (cosmetics, clip) =>
      last_match "cosmetics_main" data_to_objects cosmetics
      /\ last_match "clip" data_to_objects clip
  | Raised e =>
      e = AssertionError
      /\ (no_match "cosmetics_main" data_to_objects
          \/ no_match "clip" data_to_objects)
  end.
Proof.
  unfold _import_from_assets_folder.
  destruct (link_loop data_to_objects [] objects (mkLocals None None))
    as (locals' & -> & H1 & H2); [intros ? Hin; now apply elem_of_nil in Hin ..|].
  cbn [snd app] in *.
  destruct (cosmetics_main locals') as [c|], (fastening_clip locals') as [f|]; cbn in *; auto.
Qed.

End import_more.
